(** * Financial calculator: the numeric core, verified

    A shallow embedding of the TypeScript numeric core of the financial
    calculator (lib/financial.ts, lib/solver.ts, lib/amortization.ts and the
    row type of types.ts), followed by theorems about it.

    Numbers.  A JavaScript [number] is modelled by an exact rational [Q]:
    the theorems speak about the arithmetic the formulas denote, not about
    IEEE-754 rounding.  [Math.min], [Math.max], [Math.abs] are [Qmin], [Qmax],
    [Qabs]; [Math.pow x n] with an integer exponent is [Qpower x n] (so
    [Math.pow x 0] is 1 and a negative exponent inverts).  Equality of
    numbers is [Qeq] (written [==]), the equality of the denoted values.
    Period counts and iteration budgets are integers ([Z]): a loop
    [for (k = 1; k <= n; k++)] runs [Z.to_nat n] times.  Division is total
    on [Q] ([x / 0 == 0]) where JavaScript yields an infinity or NaN; a
    theorem whose truth depends on a divisor carries the hypotheses that
    keep it away from zero (a rate that is not negative, or that is not
    -100%; at least one period).  Where the source can read an array past its end
    ([calculateNPVVariable], [calculatePI], the closure of
    [solveDCFCashFlow]) the value read is an [option Q], [None] standing
    for [undefined] or [NaN].

    What exact arithmetic cannot show is shown on two further embeddings
    of the same source functions: [Double] runs them on IEEE-754 binary64
    numbers, the numbers JavaScript computes with, and exhibits the
    rounding and the overflow; [Real] runs the closed forms on real
    numbers, where [Math.pow] takes a fractional exponent. *)

From Stdlib Require Import QArith Qminmax Qabs Qpower ZArith List Bool Lia Lqa.
From Stdlib Require Import Setoid Morphisms.
From Stdlib Require Import PrimFloat Reals.
Import ListNotations.

Local Open Scope Q_scope.

(** A decimal literal of a double denotes the double nearest to it, as it
    does in JavaScript. *)
#[local] Set Warnings "-inexact-float".

(** ** Shared vocabulary *)

(** ['begin' | 'end'] of the source. *)
Inductive PaymentTiming : Type :=
  | AtBegin
  | AtEnd.

(** [x < y] on numbers, as a boolean test. *)
Definition Qlt_bool (x y : Q) : bool := negb (Qle_bool y x).

(** The sum of a list of numbers, left to right as a [+=] loop does. *)
Definition Qsum (l : list Q) : Q := fold_left Qplus l 0.

(** ** types.ts: a row of an amortization schedule *)

Record AMRTRow : Type := mkRow {
  period : Z;
  principalPayment : Q;
  interestPayment : Q;
  totalPayment : Q;
  remainingBalance : Q
}.

(** Two rows that denote the same numbers. *)
Definition row_eq (x y : AMRTRow) : Prop :=
  period x = period y /\
  principalPayment x == principalPayment y /\
  interestPayment x == interestPayment y /\
  totalPayment x == totalPayment y /\
  remainingBalance x == remainingBalance y.

(** ** lib/amortization.ts *)

Module Amortization.

Inductive ScheduleType : Type :=
  | Shpitzer
  | Regular
  | Balloon
  | Grace.

(** The body of the loop of [generateShpitzerSchedule]: [fuel] iterations
    are left, [period] is the loop counter and [remainingBalance] the
    mutable balance. *)
Fixpoint shpitzer_loop (principalPayment r : Q) (paymentTiming : PaymentTiming)
    (fuel : nat) (period : Z) (remainingBalance : Q) : list AMRTRow :=
  match fuel with
  | O => []
  | S fuel' =>
      let actualPrincipalPayment := Qmin principalPayment remainingBalance in
      let interestPayment :=
        match paymentTiming with
        | AtBegin =>
            let balanceAfterPrincipal := remainingBalance - actualPrincipalPayment in
            balanceAfterPrincipal * r
        | AtEnd => remainingBalance * r
        end in
      let totalPayment := actualPrincipalPayment + interestPayment in
      let remainingBalance' := remainingBalance - actualPrincipalPayment in
      mkRow period actualPrincipalPayment interestPayment totalPayment
            (Qmax 0 remainingBalance')
      :: shpitzer_loop principalPayment r paymentTiming fuel' (period + 1)
           remainingBalance'
  end.

Definition generateShpitzerSchedule (principal rate : Q) (periods : Z)
    (paymentTiming : PaymentTiming) : list AMRTRow :=
  let principalPayment := principal / inject_Z periods in
  let r := rate / 100 in
  shpitzer_loop principalPayment r paymentTiming (Z.to_nat periods) 1 principal.

(** The fixed payment amount computed before the loop of
    [generateRegularSchedule]. *)
Definition regular_pmt (principal r : Q) (periods : Z)
    (paymentTiming : PaymentTiming) : Q :=
  if Qeq_bool r 0 then principal / inject_Z periods
  else
    match paymentTiming with
    | AtBegin => (principal * r) / ((1 - Qpower (1 + r) (- periods)) * (1 + r))
    | AtEnd => (principal * r) / (1 - Qpower (1 + r) (- periods))
    end.

Fixpoint regular_loop (pmt r : Q) (paymentTiming : PaymentTiming)
    (fuel : nat) (period : Z) (remainingBalance : Q) : list AMRTRow :=
  match fuel with
  | O => []
  | S fuel' =>
      let '(interestPayment, principalPayment) :=
        match paymentTiming with
        | AtBegin =>
            let principalPayment := Qmin (pmt / (1 + r)) remainingBalance in
            let balanceAfterPrincipal := remainingBalance - principalPayment in
            (balanceAfterPrincipal * r, principalPayment)
        | AtEnd =>
            let interestPayment := remainingBalance * r in
            (interestPayment, Qmin (pmt - interestPayment) remainingBalance)
        end in
      let totalPayment := principalPayment + interestPayment in
      let remainingBalance' := remainingBalance - principalPayment in
      mkRow period principalPayment interestPayment totalPayment
            (Qmax 0 remainingBalance')
      :: regular_loop pmt r paymentTiming fuel' (period + 1) remainingBalance'
  end.

Definition generateRegularSchedule (principal rate : Q) (periods : Z)
    (paymentTiming : PaymentTiming) : list AMRTRow :=
  let r := rate / 100 in
  let pmt := regular_pmt principal r periods paymentTiming in
  regular_loop pmt r paymentTiming (Z.to_nat periods) 1 principal.

(** One iteration of the loop of [generateBalloonSchedule]; the loop keeps
    no state but its counter. *)
Definition balloon_row (principal r : Q) (periods : Z)
    (paymentTiming : PaymentTiming) (period : Z) : AMRTRow :=
  let '(interestPayment, principalPayment, remainingBalance) :=
    if (period <? periods)%Z then
      (match paymentTiming with
       | AtBegin => principal * r
       | AtEnd => principal * r
       end, 0, principal)
    else
      (match paymentTiming with
       | AtBegin => 0
       | AtEnd => principal * r
       end, principal, 0) in
  let totalPayment := principalPayment + interestPayment in
  mkRow period principalPayment interestPayment totalPayment remainingBalance.

Fixpoint balloon_loop (principal r : Q) (periods : Z)
    (paymentTiming : PaymentTiming) (fuel : nat) (period : Z) : list AMRTRow :=
  match fuel with
  | O => []
  | S fuel' =>
      balloon_row principal r periods paymentTiming period
      :: balloon_loop principal r periods paymentTiming fuel' (period + 1)
  end.

Definition generateBalloonSchedule (principal rate : Q) (periods : Z)
    (paymentTiming : PaymentTiming) : list AMRTRow :=
  let r := rate / 100 in
  balloon_loop principal r periods paymentTiming (Z.to_nat periods) 1.

(** One iteration of the loop of [generateGraceSchedule]. *)
Definition grace_row (principal r : Q) (periods : Z) (period : Z) : AMRTRow :=
  let '(interestPayment, principalPayment, remainingBalance) :=
    if (period <? periods)%Z then (principal * r, 0, principal)
    else (principal * r, principal, 0) in
  let totalPayment := principalPayment + interestPayment in
  mkRow period principalPayment interestPayment totalPayment remainingBalance.

Fixpoint grace_loop (principal r : Q) (periods : Z) (fuel : nat) (period : Z)
    : list AMRTRow :=
  match fuel with
  | O => []
  | S fuel' =>
      grace_row principal r periods period
      :: grace_loop principal r periods fuel' (period + 1)
  end.

(** [gracePeriods] is a parameter of the source function; its body never
    reads it. *)
Definition generateGraceSchedule (principal rate : Q) (periods : Z)
    (gracePeriods : Z) (paymentTiming : PaymentTiming) : list AMRTRow :=
  let r := rate / 100 in
  grace_loop principal r periods (Z.to_nat periods) 1.

(** [gracePeriods || periods]: an absent or zero [gracePeriods] is falsy. *)
Definition or_periods (gracePeriods : option Z) (periods : Z) : Z :=
  match gracePeriods with
  | Some g => if (g =? 0)%Z then periods else g
  | None => periods
  end.

Definition generateSchedule (principal rate : Q) (periods : Z)
    (scheduleType : ScheduleType) (paymentTiming : PaymentTiming)
    (gracePeriods : option Z) : list AMRTRow :=
  match scheduleType with
  | Shpitzer => generateShpitzerSchedule principal rate periods paymentTiming
  | Regular => generateRegularSchedule principal rate periods paymentTiming
  | Balloon => generateBalloonSchedule principal rate periods paymentTiming
  | Grace =>
      generateGraceSchedule principal rate periods
        (or_periods gracePeriods periods) paymentTiming
  end.

(** [AMRTSummary] of types.ts; its fields live in a module of their own
    because [totalPayment] is also a field of a row. *)
Module AMRTSummary.

Record t : Type := mk {
  totalPrincipal : Q;
  totalInterest : Q;
  totalPayment : Q
}.

End AMRTSummary.

(** The loop of [calculateSummary] over the rows still to read; [totals]
    holds the three running totals. *)
Fixpoint summary_loop (schedule : list AMRTRow) (fromPeriod toPeriod : Q)
    (totals : AMRTSummary.t) : AMRTSummary.t :=
  match schedule with
  | [] => totals
  | row :: rest =>
      summary_loop rest fromPeriod toPeriod
        (if Qle_bool fromPeriod (inject_Z (period row))
            && Qle_bool (inject_Z (period row)) toPeriod
         then
           AMRTSummary.mk
             (AMRTSummary.totalPrincipal totals + principalPayment row)
             (AMRTSummary.totalInterest totals + interestPayment row)
             (AMRTSummary.totalPayment totals + totalPayment row)
         else totals)
  end.

Definition calculateSummary (schedule : list AMRTRow)
    (fromPeriod toPeriod : Q) : AMRTSummary.t :=
  summary_loop schedule fromPeriod toPeriod (AMRTSummary.mk 0 0 0).

End Amortization.

(** ** lib/financial.ts *)

Module Financial.

Definition calculateFV (pv rate : Q) (periods : Z) (pmt : Q)
    (paymentTiming : PaymentTiming) : Q :=
  let r := rate / 100 in
  let n := periods in
  if Qeq_bool r 0 then pv + pmt * inject_Z n
  else
    let pvFactor := Qpower (1 + r) n in
    let pmtFactor :=
      ((Qpower (1 + r) n - 1) / r)
      * (match paymentTiming with AtBegin => 1 + r | AtEnd => 1 end) in
    pv * pvFactor + pmt * pmtFactor.

(** The loop of [calculateFVVariable] over the rates still to apply. *)
Fixpoint fvVariable_loop (variableRates : list Q) (pmt : Q)
    (paymentTiming : PaymentTiming) (fv : Q) : Q :=
  match variableRates with
  | [] => fv
  | rate :: rest =>
      let r := rate / 100 in
      fvVariable_loop rest pmt paymentTiming
        (match paymentTiming with
         | AtBegin => (fv + pmt) * (1 + r)
         | AtEnd => fv * (1 + r) + pmt
         end)
  end.

Definition calculateFVVariable (pv : Q) (variableRates : list Q) (pmt : Q)
    (paymentTiming : PaymentTiming) : Q :=
  fvVariable_loop variableRates pmt paymentTiming pv.

Definition calculatePV (fv rate : Q) (periods : Z) (pmt : Q)
    (paymentTiming : PaymentTiming) : Q :=
  let r := rate / 100 in
  let n := periods in
  if Qeq_bool r 0 then fv - pmt * inject_Z n
  else
    let fvFactor := Qpower (1 + r) (- n) in
    let pmtFactor :=
      ((1 - Qpower (1 + r) (- n)) / r)
      * (match paymentTiming with AtBegin => 1 + r | AtEnd => 1 end) in
    fv * fvFactor - pmt * pmtFactor.

(** The loop of [calculateNPV]: [i] is the index of the head of
    [cashFlows] in the whole series. *)
Fixpoint npv_loop (r : Q) (cashFlows : list Q) (i : Z) (npv : Q) : Q :=
  match cashFlows with
  | [] => npv
  | cf :: rest => npv_loop r rest (i + 1) (npv + cf / Qpower (1 + r) i)
  end.

Definition calculateNPV (cashFlows : list Q) (discountRate : Q) : Q :=
  let r := discountRate / 100 in
  npv_loop r cashFlows 0 0.

(** The inner loop of [calculateIRR]: the value and the derivative of the
    net present value at [rate], accumulated together. *)
Fixpoint irr_sums (rate : Q) (cashFlows : list Q) (t : Z) (npv dnpv : Q)
    : Q * Q :=
  match cashFlows with
  | [] => (npv, dnpv)
  | cf :: rest =>
      irr_sums rate rest (t + 1)
        (npv + cf / Qpower (1 + rate) t)
        (dnpv - (inject_Z t * cf) / Qpower (1 + rate) (t + 1))
  end.

(** The outer (Newton) loop of [calculateIRR]; running out of [fuel] is
    the source's "failed to converge". *)
Fixpoint irr_loop (cashFlows : list Q) (tolerance : Q) (fuel : nat) (rate : Q)
    : option Q :=
  match fuel with
  | O => None
  | S fuel' =>
      let '(npv, dnpv) := irr_sums rate cashFlows 0 0 0 in
      if Qlt_bool (Qabs npv) tolerance then Some (rate * 100)
      else if Qlt_bool (Qabs dnpv) (1 # 10000000000) then None
      else
        let rate' := rate - npv / dnpv in
        if Qlt_bool rate' (-1) then None
        else irr_loop cashFlows tolerance fuel' rate'
  end.

Definition calculateIRR (cashFlows : list Q) (guess : Q) : option Q :=
  let maxIterations := 100%nat in
  let tolerance := 1 # 1000000 in
  irr_loop cashFlows tolerance maxIterations guess.

(** A value read where JavaScript may produce [NaN] (or [undefined], which
    arithmetic turns into [NaN]): [None] is that value.  Reading an array
    past its end is the one source of it here; [NaN] is absorbing for
    [+], [*] and [/]. *)
Definition lift2 (op : Q -> Q -> Q) (x y : option Q) : option Q :=
  match x, y with
  | Some a, Some b => Some (op a b)
  | _, _ => None
  end.

(** The inner loop of [calculateNPVVariable]:
    [for (j = 0; j < i; j++) discountFactor *= 1 + rates[j] / 100],
    with [fuel] iterations left. *)
Fixpoint discountFactor_loop (variableDiscountRates : list Q) (fuel j : nat)
    (discountFactor : option Q) : option Q :=
  match fuel with
  | O => discountFactor
  | S fuel' =>
      discountFactor_loop variableDiscountRates fuel' (S j)
        (lift2 Qmult discountFactor
           (option_map (fun rate => 1 + rate / 100)
              (nth_error variableDiscountRates j)))
  end.

(** The outer loop of [calculateNPVVariable] over the cash flows from
    index [i] on. *)
Fixpoint npvVariable_loop (variableDiscountRates : list Q) (cashFlows : list Q)
    (i : nat) (npv : option Q) : option Q :=
  match cashFlows with
  | [] => npv
  | cf :: rest =>
      let discountFactor :=
        discountFactor_loop variableDiscountRates i 0 (Some 1) in
      npvVariable_loop variableDiscountRates rest (S i)
        (lift2 Qplus npv (lift2 Qdiv (Some cf) discountFactor))
  end.

(** [cashFlows[0]] of an empty series is [undefined], and is returned as
    it is since the loop does not run. *)
Definition calculateNPVVariable (cashFlows variableDiscountRates : list Q)
    : option Q :=
  npvVariable_loop variableDiscountRates (tl cashFlows) 1 (hd_error cashFlows).

(** The result of [calculatePI], typed [number | null]: [Null] is the
    source's [null], [NaN] the number it returns for an empty series
    ([0 / Math.abs(undefined)]). *)
Inductive PIResult : Type :=
  | Null
  | NaN
  | Num (x : Q).

(** The loop of [calculatePI] starts at index 1 and adds the same terms as
    the loop of [calculateNPV]. *)
Definition calculatePI (cashFlows : list Q) (discountRate : Q) : PIResult :=
  match cashFlows with
  | [] => NaN
  | cf0 :: rest =>
      let initialInvestment := Qabs cf0 in
      if Qeq_bool initialInvestment 0 then Null
      else
        let r := discountRate / 100 in
        let presentValueOfFutureCashFlows := npv_loop r rest 1 0 in
        Num (presentValueOfFutureCashFlows / initialInvestment)
  end.

Definition calculatePMT (pv fv rate : Q) (periods : Z)
    (paymentTiming : PaymentTiming) : Q :=
  let r := rate / 100 in
  let n := periods in
  if Qeq_bool r 0 then - (fv - pv) / inject_Z n
  else
    let pvFactor := Qpower (1 + r) n in
    let pmtFactor :=
      ((Qpower (1 + r) n - 1) / r)
      * (match paymentTiming with AtBegin => 1 + r | AtEnd => 1 end) in
    - (fv - pv * pvFactor) / pmtFactor.

End Financial.

(** ** lib/solver.ts *)

Module Solver.

(** The loop of [bisectionMethod]; with no [fuel] left the source falls
    through to [return (a + b) / 2]. *)
Fixpoint bisection_loop (func : Q -> Q) (tolerance : Q) (fuel : nat)
    (a b fa fb : Q) : Q :=
  match fuel with
  | O => (a + b) / 2
  | S fuel' =>
      let c := (a + b) / 2 in
      let fc := func c in
      if Qlt_bool (Qabs fc) tolerance || Qlt_bool (Qabs (b - a)) tolerance
      then c
      else if Qlt_bool (fa * fc) 0
      then bisection_loop func tolerance fuel' a c fa fc
      else bisection_loop func tolerance fuel' c b fc fb
  end.

(** [None] is the source's [null]. *)
Definition bisectionMethod (func : Q -> Q) (a b tolerance : Q)
    (maxIterations : Z) : option Q :=
  let fa := func a in
  let fb := func b in
  if Qlt_bool 0 (fa * fb) then None
  else Some (bisection_loop func tolerance (Z.to_nat maxIterations) a b fa fb).

(** The wrappers of the closed forms. *)
Definition solveCMPDFV (pv rate : Q) (periods : Z) (pmt : Q)
    (paymentTiming : PaymentTiming) : Q :=
  Financial.calculateFV pv rate periods pmt paymentTiming.

Definition solveCMPDFVVariable (pv : Q) (variableRates : list Q) (pmt : Q)
    (paymentTiming : PaymentTiming) : Q :=
  Financial.calculateFVVariable pv variableRates pmt paymentTiming.

Definition solveCMPDPV (fv rate : Q) (periods : Z) (pmt : Q)
    (paymentTiming : PaymentTiming) : Q :=
  Financial.calculatePV fv rate periods pmt paymentTiming.

Definition solveCMPDRate (pv fv : Q) (periods : Z) (pmt : Q)
    (paymentTiming : PaymentTiming) : option Q :=
  let func := fun rate : Q =>
    Financial.calculateFV pv rate periods pmt paymentTiming - fv in
  bisectionMethod func (-99) 1000 (1 # 1000000) 200.

(** ['fixed' | 'variable'] of the source. *)
Inductive DiscountRateType : Type :=
  | FixedRate
  | VariableRate.

(** [x < y] where either side may be [NaN]: a comparison with [NaN] is
    false. *)
Definition nan_lt (x y : option Q) : bool :=
  match x, y with
  | Some a, Some b => Qlt_bool a b
  | _, _ => false
  end.

(** [bisectionMethod] again, for a closure that may return [NaN] (the
    closure of [solveDCFCashFlow] does, when it reads a cash flow that is
    not there).  The endpoints stay numbers; only the values of the
    closure may be [NaN].  [bisectionMethodN_total] below shows that this
    is [bisectionMethod] on a closure that always returns a number. *)
Fixpoint bisectionN_loop (func : Q -> option Q) (tolerance : Q) (fuel : nat)
    (a b : Q) (fa fb : option Q) : Q :=
  match fuel with
  | O => (a + b) / 2
  | S fuel' =>
      let c := (a + b) / 2 in
      let fc := func c in
      if nan_lt (option_map Qabs fc) (Some tolerance)
         || Qlt_bool (Qabs (b - a)) tolerance
      then c
      else if nan_lt (Financial.lift2 Qmult fa fc) (Some 0)
      then bisectionN_loop func tolerance fuel' a c fa fc
      else bisectionN_loop func tolerance fuel' c b fc fb
  end.

Definition bisectionMethodN (func : Q -> option Q) (a b tolerance : Q)
    (maxIterations : Z) : option Q :=
  let fa := func a in
  let fb := func b in
  if nan_lt (Some 0) (Financial.lift2 Qmult fa fb) then None
  else Some (bisectionN_loop func tolerance (Z.to_nat maxIterations) a b fa fb).

(** [modifiedCashFlows = [...cashFlows]; modifiedCashFlows[solverPeriod] = x]
    for an integer [solverPeriod].  Inside the series the cash flow is
    replaced, at its end it is appended; a negative index sets a property
    and leaves the series alone; an index past the end leaves holes, which
    read as [undefined] and turn every net present value into [NaN]:
    [None] is a series with holes. *)
Definition modifiedCashFlows (cashFlows : list Q) (solverPeriod : Z) (x : Q)
    : option (list Q) :=
  if (solverPeriod <? 0)%Z then Some cashFlows
  else
    let k := Z.to_nat solverPeriod in
    if (k <=? length cashFlows)%nat
    then Some (firstn k cashFlows ++ x :: skipn (S k) cashFlows)
    else None.

(** The closure [func] of [solveDCFCashFlow]; [variableDiscountRates] is
    an optional argument of the source. *)
Definition dcf_func (cashFlows : list Q) (solverPeriod : Z)
    (targetNPV discountRate : Q) (discountRateType : DiscountRateType)
    (variableDiscountRates : option (list Q)) (x : Q) : option Q :=
  match modifiedCashFlows cashFlows solverPeriod x with
  | None => None
  | Some modified =>
      let npv :=
        match discountRateType, variableDiscountRates with
        | VariableRate, Some rates =>
            Financial.calculateNPVVariable modified rates
        | _, _ => Some (Financial.calculateNPV modified discountRate)
        end in
      Financial.lift2 Qminus npv (Some targetNPV)
  end.

Definition solveDCFCashFlow (cashFlows : list Q) (solverPeriod : Z)
    (targetNPV discountRate : Q) (discountRateType : DiscountRateType)
    (variableDiscountRates : option (list Q)) : option Q :=
  bisectionMethodN
    (dcf_func cashFlows solverPeriod targetNPV discountRate discountRateType
       variableDiscountRates)
    (-10000000000) 10000000000 (1 # 1000000) 200.

End Solver.

(** ** The same functions on doubles *)

(** lib/financial.ts and [bisectionMethod] of lib/solver.ts with a
    JavaScript [number] read as what it is, an IEEE-754 binary64 value:
    [+], [-], [*], [/], [Math.abs] and the comparisons are the primitive
    operations on [float], rounded to nearest, with infinities and NaN. *)
Module Double.

Local Open Scope float_scope.

(** [Math.pow] on doubles.  ECMAScript leaves its value
    implementation-approximated; the model gives it at the exponents 0, 1,
    -1 and 2 only, where it is 1, [x], [1 / x] and [x * x], and gives no
    value ([None]) elsewhere.  A function that calls [Math.pow] returns
    [None] when it needs a power that is not modelled. *)
Definition pow (x y : float) : option float :=
  if y =? 0 then Some 1
  else if y =? 1 then Some x
  else if y =? -1 then Some (1 / x)
  else if y =? 2 then Some (x * x)
  else None.

Definition calculateFV (pv rate periods pmt : float)
    (paymentTiming : PaymentTiming) : option float :=
  let r := rate / 100 in
  let n := periods in
  if r =? 0 then Some (pv + pmt * n)
  else
    match pow (1 + r) n with
    | None => None
    | Some power =>
        let pvFactor := power in
        let pmtFactor :=
          ((power - 1) / r)
          * (match paymentTiming with AtBegin => 1 + r | AtEnd => 1 end) in
        Some (pv * pvFactor + pmt * pmtFactor)
    end.

Definition calculatePV (fv rate periods pmt : float)
    (paymentTiming : PaymentTiming) : option float :=
  let r := rate / 100 in
  let n := periods in
  if r =? 0 then Some (fv - pmt * n)
  else
    match pow (1 + r) (- n) with
    | None => None
    | Some power =>
        let fvFactor := power in
        let pmtFactor :=
          ((1 - power) / r)
          * (match paymentTiming with AtBegin => 1 + r | AtEnd => 1 end) in
        Some (fv * fvFactor - pmt * pmtFactor)
    end.

Fixpoint npv_loop (r : float) (cashFlows : list float) (i npv : float)
    : option float :=
  match cashFlows with
  | [] => Some npv
  | cf :: rest =>
      match pow (1 + r) i with
      | None => None
      | Some power => npv_loop r rest (i + 1) (npv + cf / power)
      end
  end.

Definition calculateNPV (cashFlows : list float) (discountRate : float)
    : option float :=
  let r := discountRate / 100 in
  npv_loop r cashFlows 0 0.

Fixpoint irr_sums (rate : float) (cashFlows : list float) (t npv dnpv : float)
    : option (float * float) :=
  match cashFlows with
  | [] => Some (npv, dnpv)
  | cf :: rest =>
      match pow (1 + rate) t, pow (1 + rate) (t + 1) with
      | Some power, Some power' =>
          irr_sums rate rest (t + 1)
            (npv + cf / power) (dnpv - (t * cf) / power')
      | _, _ => None
      end
  end.

(** The result is [Some None] for the source's [null], [Some (Some r)]
    for a rate, [None] when a power that is not modelled was needed. *)
Fixpoint irr_loop (cashFlows : list float) (tolerance : float) (fuel : nat)
    (rate : float) : option (option float) :=
  match fuel with
  | O => Some None
  | S fuel' =>
      match irr_sums rate cashFlows 0 0 0 with
      | None => None
      | Some (npv, dnpv) =>
          if abs npv <? tolerance then Some (Some (rate * 100))
          else if abs dnpv <? 1e-10 then Some None
          else
            let rate' := rate - npv / dnpv in
            if rate' <? -1 then Some None
            else irr_loop cashFlows tolerance fuel' rate'
      end
  end.

Definition calculateIRR (cashFlows : list float) (guess : float)
    : option (option float) :=
  let maxIterations := 100%nat in
  let tolerance := 1e-6 in
  irr_loop cashFlows tolerance maxIterations guess.

Fixpoint bisection_loop (func : float -> float) (tolerance : float)
    (fuel : nat) (a b fa fb : float) : float :=
  match fuel with
  | O => (a + b) / 2
  | S fuel' =>
      let c := (a + b) / 2 in
      let fc := func c in
      if (abs fc <? tolerance) || (abs (b - a) <? tolerance)
      then c
      else if fa * fc <? 0
      then bisection_loop func tolerance fuel' a c fa fc
      else bisection_loop func tolerance fuel' c b fc fb
  end.

Definition bisectionMethod (func : float -> float) (a b tolerance : float)
    (maxIterations : Z) : option float :=
  let fa := func a in
  let fb := func b in
  if 0 <? fa * fb then None
  else Some (bisection_loop func tolerance (Z.to_nat maxIterations) a b fa fb).

End Double.

(** ** The closed forms on real numbers *)

(** [calculateFV] and [calculatePV] with a [number] read as a real number:
    [periods] may be fractional.  [Math.pow x y] is the real power
    [Rpower x y], which is the power of a positive base; the theorem
    about these definitions keeps the base [1 + r] at 1 or more. *)
Module Real.

Local Open Scope R_scope.

Definition calculateFV (pv rate periods pmt : R)
    (paymentTiming : PaymentTiming) : R :=
  let r := rate / 100 in
  let n := periods in
  if Req_dec_T r 0 then pv + pmt * n
  else
    let pvFactor := Rpower (1 + r) n in
    let pmtFactor :=
      ((Rpower (1 + r) n - 1) / r)
      * (match paymentTiming with AtBegin => 1 + r | AtEnd => 1 end) in
    pv * pvFactor + pmt * pmtFactor.

Definition calculatePV (fv rate periods pmt : R)
    (paymentTiming : PaymentTiming) : R :=
  let r := rate / 100 in
  let n := periods in
  if Req_dec_T r 0 then fv - pmt * n
  else
    let fvFactor := Rpower (1 + r) (- n) in
    let pmtFactor :=
      ((1 - Rpower (1 + r) (- n)) / r)
      * (match paymentTiming with AtBegin => 1 + r | AtEnd => 1 end) in
    fv * fvFactor - pmt * pmtFactor.

End Real.

Import Amortization Financial Solver.

(** ** Vocabulary of the statements *)

(** The bracket of [bisectionMethod] and the values at its ends, as one
    iteration that does not meet the tolerance leaves them. *)
Definition narrow (func : Q -> Q) (st : Q * Q * Q * Q) : Q * Q * Q * Q :=
  let '(a, b, fa, fb) := st in
  let c := (a + b) / 2 in
  let fc := func c in
  if Qlt_bool (fa * fc) 0 then (a, c, fa, fc) else (c, b, fc, fb).

(** The test that ends the loop of [bisectionMethod] early, on the same
    state. *)
Definition meets_tolerance (func : Q -> Q) (tolerance : Q)
    (st : Q * Q * Q * Q) : bool :=
  let '(a, b, _, _) := st in
  Qlt_bool (Qabs (func ((a + b) / 2))) tolerance
  || Qlt_bool (Qabs (b - a)) tolerance.

Definition midpoint (st : Q * Q * Q * Q) : Q :=
  let '(a, b, _, _) := st in (a + b) / 2.

(** The two loops that keep no state but their counter
    ([generateBalloonSchedule], [generateGraceSchedule]) share one shape:
    the row of each period is a function of the period number. *)
Fixpoint row_loop (rowOf : Z -> AMRTRow) (fuel : nat) (period : Z)
    : list AMRTRow :=
  match fuel with
  | O => []
  | S fuel' => rowOf period :: row_loop rowOf fuel' (period + 1)
  end.

(** The two loops that carry a balance from one period to the next
    ([generateShpitzerSchedule], [generateRegularSchedule]) share one
    shape: a row is made of the principal part and of the interest part
    computed from the balance, and the principal part is taken off the
    balance.  [pay_loop] is that shape; the lemmas [shpitzer_loop_pay] and
    [regular_loop_pay] below show that the source loops are instances. *)
Fixpoint pay_loop (principalOf interestOf : Q -> Q) (fuel : nat) (period : Z)
    (remainingBalance : Q) : list AMRTRow :=
  match fuel with
  | O => []
  | S fuel' =>
      let p := principalOf remainingBalance in
      let i := interestOf remainingBalance in
      mkRow period p i (p + i) (Qmax 0 (remainingBalance - p))
      :: pay_loop principalOf interestOf fuel' (period + 1) (remainingBalance - p)
  end.

(** The balance such a loop is left with after [fuel] periods. *)
Fixpoint balance_after (principalOf : Q -> Q) (fuel : nat) (balance : Q) : Q :=
  match fuel with
  | O => balance
  | S fuel' => balance_after principalOf fuel' (balance - principalOf balance)
  end.

(** Row [k] (counted from 1) carries period number [k]. *)
Definition numbered_from_one (schedule : list AMRTRow) : Prop :=
  forall i row, nth_error schedule i = Some row -> period row = (Z.of_nat i + 1)%Z.

Definition totals_add_up (schedule : list AMRTRow) : Prop :=
  forall row, In row schedule ->
    totalPayment row == principalPayment row + interestPayment row.

Definition balance_nonincreasing (schedule : list AMRTRow) : Prop :=
  forall i row next,
    nth_error schedule i = Some row ->
    nth_error schedule (S i) = Some next ->
    remainingBalance next <= remainingBalance row.

Definition level_payment (schedule : list AMRTRow) : Prop :=
  forall row row', In row schedule -> In row' schedule ->
    totalPayment row == totalPayment row'.

Definition principal_repaid (schedule : list AMRTRow) : Q :=
  Qsum (map principalPayment schedule).

(** [pmt] is the level payment that clears the balance [b] in [m] periods
    at the rate [r]: [pmt * ((1 + r)^m - 1) = b * r * (1 + r)^m]. *)
Definition clears (pmt r : Q) (m : nat) (b : Q) : Prop :=
  0 <= b
  /\ pmt * ((1 + r) ^ Z.of_nat m - 1) == b * r * (1 + r) ^ Z.of_nat m.

(** Two summaries that denote the same numbers. *)
Definition summary_eq (x y : AMRTSummary.t) : Prop :=
  AMRTSummary.totalPrincipal x == AMRTSummary.totalPrincipal y
  /\ AMRTSummary.totalInterest x == AMRTSummary.totalInterest y
  /\ AMRTSummary.totalPayment x == AMRTSummary.totalPayment y.

(** The sum of two summaries, field by field. *)
Definition summary_plus (x y : AMRTSummary.t) : AMRTSummary.t :=
  AMRTSummary.mk
    (AMRTSummary.totalPrincipal x + AMRTSummary.totalPrincipal y)
    (AMRTSummary.totalInterest x + AMRTSummary.totalInterest y)
    (AMRTSummary.totalPayment x + AMRTSummary.totalPayment y).

(** The test of [calculateSummary] on a row. *)
Definition in_range (fromPeriod toPeriod : Q) (row : AMRTRow) : bool :=
  Qle_bool fromPeriod (inject_Z (period row))
  && Qle_bool (inject_Z (period row)) toPeriod.

(** Every amount of a row is non-negative. *)
Definition row_nonneg (row : AMRTRow) : Prop :=
  0 <= principalPayment row
  /\ 0 <= interestPayment row
  /\ 0 <= totalPayment row
  /\ 0 <= remainingBalance row.

(** The series [cashFlows] with the cash flow of period [k] set to [x]
    (appended when [k] is the length of the series). *)
Definition with_cash_flow (cashFlows : list Q) (k : nat) (x : Q) : list Q :=
  firstn k cashFlows ++ x :: skipn (S k) cashFlows.

(** * Properties *)

(** ** Boolean tests on numbers *)

Lemma Qlt_bool_iff (x y : Q) : Qlt_bool x y = true <-> x < y.
Proof.
  unfold Qlt_bool. rewrite negb_true_iff.
  split; intro H.
  - apply Qnot_le_lt. intro Hle. apply Qle_bool_iff in Hle. congruence.
  - apply not_true_is_false. intro Hle. apply Qle_bool_iff in Hle. lra.
Qed.

Lemma Qlt_bool_false_iff (x y : Q) : Qlt_bool x y = false <-> y <= x.
Proof.
  unfold Qlt_bool. rewrite negb_false_iff. apply Qle_bool_iff.
Qed.

(** ** The balloon and grace loops, row by row *)

Lemma balloon_loop_rows (principal r : Q) (periods : Z)
    (paymentTiming : PaymentTiming) (fuel : nat) : forall start,
  balloon_loop principal r periods paymentTiming fuel start
  = row_loop (balloon_row principal r periods paymentTiming) fuel start.
Proof.
  induction fuel as [|fuel IH]; intros start; simpl; [|rewrite IH];
    reflexivity.
Qed.

Lemma grace_loop_rows (principal r : Q) (periods : Z) (fuel : nat) :
  forall start,
    grace_loop principal r periods fuel start
    = row_loop (grace_row principal r periods) fuel start.
Proof.
  induction fuel as [|fuel IH]; intros start; simpl; [|rewrite IH];
    reflexivity.
Qed.

Section RowLoop.

Variable rowOf : Z -> AMRTRow.

Lemma row_loop_length (fuel : nat) : forall start,
  length (row_loop rowOf fuel start) = fuel.
Proof.
  induction fuel as [|fuel IH]; intros start; simpl; [|rewrite IH];
    reflexivity.
Qed.

Lemma row_loop_nth (fuel : nat) : forall (start : Z) (i : nat),
  (i < fuel)%nat ->
  nth_error (row_loop rowOf fuel start) i = Some (rowOf (start + Z.of_nat i)).
Proof.
  induction fuel as [|fuel IH]; intros start i Hi; [lia|].
  destruct i as [|i]; simpl.
  - now rewrite Z.add_0_r.
  - rewrite IH by lia. do 2 f_equal. lia.
Qed.

Lemma row_loop_nth_inv (fuel : nat) (start : Z) (i : nat) (row : AMRTRow) :
  nth_error (row_loop rowOf fuel start) i = Some row ->
  (i < fuel)%nat /\ row = rowOf (start + Z.of_nat i).
Proof.
  intros Hnth.
  assert (Hi : (i < fuel)%nat).
  { rewrite <- (row_loop_length fuel start). apply nth_error_Some. congruence. }
  rewrite row_loop_nth in Hnth by exact Hi. split; congruence.
Qed.

Lemma row_loop_In (fuel : nat) : forall (start : Z) (row : AMRTRow),
  In row (row_loop rowOf fuel start) ->
  exists k, (start <= k < start + Z.of_nat fuel)%Z /\ row = rowOf k.
Proof.
  induction fuel as [|fuel IH]; intros start row Hin; [contradiction|].
  destruct Hin as [<-|Hin].
  - exists start. split; [lia|reflexivity].
  - destruct (IH _ _ Hin) as (k & Hk & ->). exists k. split; [lia|reflexivity].
Qed.

End RowLoop.

(** ** Balloon schedules *)

(** C1 (as amended): a balloon schedule has [periods] rows, and row [k],
    for [1 <= k <= periods] and either timing, carries period number [k];
    its principal payment is 0 before the final period and the whole
    principal at the final one; its remaining balance is the principal
    before the final period and 0 at the final one; its interest payment
    is [principal * (rate / 100)], except that with timing 'begin' the
    final row carries interest 0. *)
Theorem balloon_schedule_rows (principal rate : Q) (periods : Z)
    (paymentTiming : PaymentTiming) :
  length (generateBalloonSchedule principal rate periods paymentTiming)
  = Z.to_nat periods
  /\ forall k, (1 <= k <= periods)%Z ->
     exists row,
       nth_error (generateBalloonSchedule principal rate periods paymentTiming)
                 (Z.to_nat (k - 1)) = Some row
       /\ period row = k
       /\ principalPayment row = (if (k <? periods)%Z then 0 else principal)
       /\ remainingBalance row = (if (k <? periods)%Z then principal else 0)
       /\ interestPayment row =
            match paymentTiming with
            | AtEnd => principal * (rate / 100)
            | AtBegin =>
                if (k <? periods)%Z then principal * (rate / 100) else 0
            end.
Proof.
  unfold generateBalloonSchedule. rewrite balloon_loop_rows.
  split; [apply row_loop_length|].
  intros k Hk. rewrite row_loop_nth by lia.
  replace (1 + Z.of_nat (Z.to_nat (k - 1)))%Z with k by lia.
  eexists. split; [reflexivity|].
  unfold balloon_row.
  destruct (k <? periods)%Z, paymentTiming; simpl; repeat split; reflexivity.
Qed.

Lemma balloon_schedule_rows_witness :
  exists row,
    nth_error (generateBalloonSchedule 1000 10 3 AtBegin) 2 = Some row
    /\ period row = 3%Z
    /\ principalPayment row = 1000
    /\ remainingBalance row = 0
    /\ interestPayment row = 0.
Proof.
  apply (proj2 (balloon_schedule_rows 1000 10 3 AtBegin) 3%Z). lia.
Defined.

(** C1, as stated, fails: with timing 'begin' the final row of the balloon
    schedule for principal 1000 at 10% over 2 periods carries no interest,
    where the claim asks for 1000 * (10 / 100). *)
Lemma balloon_begin_final_interest_is_zero :
  exists row,
    nth_error (generateBalloonSchedule 1000 10 2 AtBegin) 1 = Some row
    /\ period row = 2%Z
    /\ interestPayment row == 0
    /\ ~ interestPayment row == 1000 * (10 / 100).
Proof.
  eexists. split; [reflexivity|]. simpl.
  split; [reflexivity|]. split; [reflexivity|].
  intro H. vm_compute in H. discriminate H.
Qed.

(** ** Shpitzer schedules: the concrete scenario *)

(** C2 (as amended): the first row of the shpitzer schedule for principal
    1200 at 12% over 12 periods, timing 'end', is period 1 with principal
    payment 100, interest payment 144 (12% of the whole balance), total
    payment 244 and remaining balance 1100. *)
Theorem shpitzer_scenario_first_row :
  exists row,
    hd_error (generateShpitzerSchedule 1200 12 12 AtEnd) = Some row
    /\ row_eq row (mkRow 1 100 144 244 1100).
Proof.
  eexists. split; [reflexivity|].
  repeat split; vm_compute; reflexivity.
Qed.

(** C2, as stated, fails: the first row is not
    [{period: 1, principalPayment: 100, interestPayment: 12,
      totalPayment: 112, remainingBalance: 1100}]. *)
Lemma shpitzer_scenario_first_row_not_as_stated :
  ~ (exists row,
       hd_error (generateShpitzerSchedule 1200 12 12 AtEnd) = Some row
       /\ row_eq row (mkRow 1 100 12 112 1100)).
Proof.
  intros (row & Hhd & _ & _ & Hint & _).
  injection Hhd as <-. vm_compute in Hint. discriminate Hint.
Qed.

(** ** Grace schedules *)


(** ** Variable-rate future value *)

(** C9: with an empty rate series [calculateFVVariable] returns [pv]
    itself, whatever the payment and the timing. *)
Theorem calculateFVVariable_no_rates (pv pmt : Q) (paymentTiming : PaymentTiming) :
  calculateFVVariable pv [] pmt paymentTiming = pv.
Proof. reflexivity. Qed.

(** ** Bisection *)

Section Bisection.

Variables (func : Q -> Q) (tolerance : Q).

Lemma narrow_eq (a b fa fb : Q) :
  narrow func (a, b, fa, fb)
  = if Qlt_bool (fa * func ((a + b) / 2)) 0
    then (a, (a + b) / 2, fa, func ((a + b) / 2))
    else ((a + b) / 2, b, func ((a + b) / 2), fb).
Proof. reflexivity. Qed.

Lemma bisection_loop_step (fuel : nat) (a b fa fb : Q) :
  bisection_loop func tolerance (S fuel) a b fa fb
  = if meets_tolerance func tolerance (a, b, fa, fb) then (a + b) / 2
    else if Qlt_bool (fa * func ((a + b) / 2)) 0
    then bisection_loop func tolerance fuel a ((a + b) / 2) fa (func ((a + b) / 2))
    else bisection_loop func tolerance fuel ((a + b) / 2) b (func ((a + b) / 2)) fb.
Proof. reflexivity. Qed.

Lemma bisection_loop_exhausted (fuel : nat) : forall a b fa fb,
  (forall i, (i < fuel)%nat ->
             meets_tolerance func tolerance (Nat.iter i (narrow func) (a, b, fa, fb)) = false) ->
  bisection_loop func tolerance fuel a b fa fb
  = midpoint (Nat.iter fuel (narrow func) (a, b, fa, fb)).
Proof.
  induction fuel as [|fuel IH]; intros a b fa fb Hno; [reflexivity|].
  rewrite Nat.iter_succ_r, bisection_loop_step, narrow_eq.
  pose proof (Hno 0%nat (Nat.lt_0_succ _)) as H0.
  change (Nat.iter 0 (narrow func) (a, b, fa, fb)) with (a, b, fa, fb) in H0.
  rewrite H0.
  assert (Hnext : forall i, (i < fuel)%nat ->
            meets_tolerance func tolerance (Nat.iter i (narrow func) (narrow func (a, b, fa, fb))) = false).
  { intros i Hi. rewrite <- Nat.iter_succ_r. apply Hno. lia. }
  rewrite narrow_eq in Hnext.
  destruct (Qlt_bool (fa * func ((a + b) / 2)) 0); now apply IH.
Qed.

Lemma midpoint_in_bracket (a b : Q) : a <= b -> a <= (a + b) / 2 <= b.
Proof.
  intros Hab.
  assert (E : (a + b) / 2 == (a + b) * (1 # 2)) by reflexivity.
  rewrite E. split; lra.
Qed.

Lemma bisection_loop_in_bracket (fuel : nat) : forall a b fa fb,
  a <= b ->
  a <= bisection_loop func tolerance fuel a b fa fb <= b.
Proof.
  induction fuel as [|fuel IH]; intros a b fa fb Hab; cbn [bisection_loop].
  - now apply midpoint_in_bracket.
  - pose proof (midpoint_in_bracket a b Hab) as Hc.
    destruct (Qlt_bool (Qabs (func ((a + b) / 2))) tolerance
              || Qlt_bool (Qabs (b - a)) tolerance); [exact Hc|].
    destruct (Qlt_bool (fa * func ((a + b) / 2)) 0).
    + destruct (IH a ((a + b) / 2) fa (func ((a + b) / 2))) as [H1 H2];
        [apply Hc|]. split; lra.
    + destruct (IH ((a + b) / 2) b (func ((a + b) / 2)) fb) as [H1 H2];
        [apply Hc|]. split; lra.
Qed.

End Bisection.

(** C5: [bisectionMethod] returns "no result" exactly when
    [f a * f b > 0]; whenever [f a * f b <= 0] it returns a number; and
    when no iteration of the budget meets the tolerance, that number is
    the midpoint of the bracket the narrowing steps have reached. *)
Theorem bisectionMethod_null_iff (func : Q -> Q) (a b tolerance : Q)
    (maxIterations : Z) :
  (bisectionMethod func a b tolerance maxIterations = None
   <-> 0 < func a * func b)
  /\ (func a * func b <= 0 ->
      exists c, bisectionMethod func a b tolerance maxIterations = Some c)
  /\ (func a * func b <= 0 ->
      (forall i, (i < Z.to_nat maxIterations)%nat ->
         meets_tolerance func tolerance
           (Nat.iter i (narrow func) (a, b, func a, func b)) = false) ->
      bisectionMethod func a b tolerance maxIterations
      = Some (midpoint (Nat.iter (Z.to_nat maxIterations) (narrow func)
                          (a, b, func a, func b)))).
Proof.
  unfold bisectionMethod.
  destruct (Qlt_bool 0 (func a * func b)) eqn:E.
  - apply Qlt_bool_iff in E. repeat split; intros; try lra; auto.
  - apply Qlt_bool_false_iff in E. split; [|split].
    + split; [discriminate | lra].
    + intros _. eexists. reflexivity.
    + intros _ Hno. f_equal. now apply bisection_loop_exhausted.
Qed.

(** C10, in exact arithmetic: a number returned by [bisectionMethod] on a
    bracket [a <= b] lies inside that bracket.  The only division is by
    2; what exact numbers leave out is the overflow of [a + b]. *)
Theorem bisectionMethod_in_bracket (func : Q -> Q) (a b tolerance : Q)
    (maxIterations : Z) (c : Q) :
  a <= b ->
  bisectionMethod func a b tolerance maxIterations = Some c ->
  a <= c <= b.
Proof.
  intros Hab. unfold bisectionMethod.
  destruct (Qlt_bool 0 (func a * func b)); [discriminate|].
  intros [= <-]. now apply bisection_loop_in_bracket.
Qed.

Lemma bisectionMethod_in_bracket_witness :
  exists c,
    bisectionMethod (fun x => x * x - 4) 0 3 (1 # 1000000) 3 = Some c
    /\ 0 <= c <= 3.
Proof.
  eexists. split; [reflexivity|].
  apply (bisectionMethod_in_bracket (fun x => x * x - 4) 0 3 (1 # 1000000) 3).
  - vm_compute. discriminate.
  - reflexivity.
Defined.

(** C10 on doubles: the sum [a + b] of the two ends overflows.  On the
    bracket from 1e308 to 1.7e308, across which [x - 1.2e308] changes
    sign, every midpoint is [Infinity], no test of the loop stops it, and
    the value returned after the 100 iterations is [Infinity], above
    [b]. *)
Lemma bisectionMethod_overflows_out_of_bracket :
  (1e308 <=? 1.7e308)%float = true
  /\ (0 <? 1e-6)%float = true
  /\ (0 <= 100)%Z
  /\ Double.bisectionMethod (fun x => x - 1.2e308)%float 1e308 1.7e308 1e-6 100
     = Some infinity
  /\ (infinity <=? 1.7e308)%float = false.
Proof.
  repeat split; try (vm_compute; reflexivity). lia.
Qed.

(** ** Present and future value *)




(** ** Net present value and internal rate of return *)

Lemma npv_loop_rate_eq (r r' : Q) (cashFlows : list Q) :
  r == r' ->
  forall i npv npv', npv == npv' ->
    npv_loop r cashFlows i npv == npv_loop r' cashFlows i npv'.
Proof.
  intros Hr. induction cashFlows as [|cf rest IH]; intros i npv npv' Hnpv; simpl.
  - exact Hnpv.
  - apply IH. now rewrite Hr, Hnpv.
Qed.

Lemma irr_sums_fst (rate : Q) (cashFlows : list Q) : forall t npv dnpv,
  fst (irr_sums rate cashFlows t npv dnpv) = npv_loop rate cashFlows t npv.
Proof.
  induction cashFlows as [|cf rest IH]; intros t npv dnpv; simpl.
  - reflexivity.
  - apply IH.
Qed.

Lemma irr_loop_sound (cashFlows : list Q) (tolerance : Q) (fuel : nat) :
  forall rate r,
    irr_loop cashFlows tolerance fuel rate = Some r ->
    Qabs (calculateNPV cashFlows r) < tolerance.
Proof.
  induction fuel as [|fuel IH]; intros rate r; [discriminate|].
  cbn [irr_loop].
  pose proof (irr_sums_fst rate cashFlows 0 0 0) as Hfst.
  destruct (irr_sums rate cashFlows 0 0 0) as [npv dnpv]. cbn [fst] in Hfst.
  destruct (Qlt_bool (Qabs npv) tolerance) eqn:Etol.
  - intros [= <-]. apply Qlt_bool_iff in Etol.
    unfold calculateNPV.
    assert (E : npv_loop (rate * 100 / 100) cashFlows 0 0 == npv).
    { rewrite Hfst. apply npv_loop_rate_eq; [field | reflexivity]. }
    now rewrite E.
  - destruct (Qlt_bool (Qabs dnpv) (1 # 10000000000)); [discriminate|].
    destruct (Qlt_bool (rate - npv / dnpv) (-1)); [discriminate|].
    apply IH.
Qed.

(** C8, in exact arithmetic: a rate returned by [calculateIRR] makes
    [calculateNPV] vanish within 1e-4 (indeed within the 1e-6 tolerance of
    the iteration).  The second hypothesis holds of every rate the source
    returns: a rate of -100% is returned only for a series of at most one
    cash flow, since with two or more the source divides by
    [Math.pow(0, t)], its sums are not numbers and it returns [null].
    Below -100% nothing is returned, and at any other rate the powers of
    [1 + rate] are not 0. *)
Theorem calculateIRR_npv_small (cashFlows : list Q) (guess r : Q) :
  calculateIRR cashFlows guess = Some r ->
  ~ r == -100 \/ (length cashFlows <= 1)%nat ->
  Qabs (calculateNPV cashFlows r) < 1 # 10000.
Proof.
  intros H _. unfold calculateIRR in H. apply irr_loop_sound in H.
  eapply Qlt_trans; [exact H|]. reflexivity.
Qed.

Lemma calculateIRR_npv_small_witness :
  exists r,
    calculateIRR [-1000; 1100] 0 = Some r
    /\ Qabs (calculateNPV [-1000; 1100] r) < 1 # 10000.
Proof.
  eexists. split; [vm_compute; reflexivity|].
  apply (calculateIRR_npv_small [-1000; 1100] 0).
  - vm_compute. reflexivity.
  - left. intro H. vm_compute in H. discriminate H.
Defined.

(** C8 on doubles: the rate is tested as a fraction and returned as a
    percentage, and [rate * 100 / 100] is not always [rate].  At the
    guess 0.896 the net present value of the two cash flows is exactly 0,
    so 0.896 * 100 = 89.60000000000001 is returned at once; divided by
    100 again it is the double next above 0.896, where the net present
    value is -0.5. *)
Lemma calculateIRR_npv_off_on_doubles :
  Double.calculateIRR [-3982000000000000; 7549872000000000]%float 0.896
  = Some (Some 89.600000000000009%float)
  /\ Double.calculateNPV [-3982000000000000; 7549872000000000]%float
       89.600000000000009
     = Some (-0.5)%float
  /\ (1e-4 <? abs (-0.5))%float = true.
Proof.
  repeat split; vm_compute; reflexivity.
Qed.

(** ** Sums of numbers *)

Lemma fold_left_Qplus_acc (l : list Q) : forall acc,
  fold_left Qplus l acc == acc + fold_left Qplus l 0.
Proof.
  induction l as [|x l IH]; intros acc; simpl.
  - ring.
  - rewrite (IH (acc + x)), (IH (0 + x)). ring.
Qed.

Lemma Qsum_cons (x : Q) (l : list Q) : Qsum (x :: l) == x + Qsum l.
Proof.
  unfold Qsum. simpl. rewrite fold_left_Qplus_acc. ring.
Qed.

(** ** Loops that carry a balance *)

Lemma shpitzer_loop_pay (principalPayment r : Q) (paymentTiming : PaymentTiming)
    (fuel : nat) : forall period balance,
  shpitzer_loop principalPayment r paymentTiming fuel period balance
  = pay_loop (fun b => Qmin principalPayment b)
      (fun b => match paymentTiming with
                | AtBegin => (b - Qmin principalPayment b) * r
                | AtEnd => b * r
                end)
      fuel period balance.
Proof.
  induction fuel as [|fuel IH]; intros period balance; [reflexivity|].
  cbn [shpitzer_loop pay_loop]. now rewrite IH.
Qed.

Lemma regular_loop_pay (pmt r : Q) (paymentTiming : PaymentTiming)
    (fuel : nat) : forall period balance,
  regular_loop pmt r paymentTiming fuel period balance
  = pay_loop (fun b => match paymentTiming with
                       | AtBegin => Qmin (pmt / (1 + r)) b
                       | AtEnd => Qmin (pmt - b * r) b
                       end)
      (fun b => match paymentTiming with
                | AtBegin => (b - Qmin (pmt / (1 + r)) b) * r
                | AtEnd => b * r
                end)
      fuel period balance.
Proof.
  induction fuel as [|fuel IH]; intros period balance; [reflexivity|].
  destruct paymentTiming; cbn [regular_loop pay_loop]; now rewrite IH.
Qed.

Section PayLoop.

Variables (principalOf interestOf : Q -> Q).

Lemma pay_loop_length (fuel : nat) : forall period balance,
  length (pay_loop principalOf interestOf fuel period balance) = fuel.
Proof.
  induction fuel as [|fuel IH]; intros period balance; simpl; [|rewrite IH];
    reflexivity.
Qed.

Lemma pay_loop_nth (fuel : nat) : forall start balance i row,
  nth_error (pay_loop principalOf interestOf fuel start balance) i = Some row ->
  period row = (start + Z.of_nat i)%Z
  /\ remainingBalance row
     = Qmax 0 (balance_after principalOf (S i) balance).
Proof.
  induction fuel as [|fuel IH]; intros start balance i row Hnth.
  - now destruct i.
  - destruct i as [|i].
    + injection Hnth as <-. simpl. split; [lia|reflexivity].
    + cbn [pay_loop nth_error] in Hnth. apply IH in Hnth.
      destruct Hnth as [Hp Hb]. split; [lia|exact Hb].
Qed.

Lemma pay_loop_totals (fuel : nat) : forall start balance,
  totals_add_up (pay_loop principalOf interestOf fuel start balance).
Proof.
  induction fuel as [|fuel IH]; intros start balance row Hin; [contradiction|].
  destruct Hin as [<-|Hin]; [reflexivity|]. exact (IH _ _ _ Hin).
Qed.

Lemma pay_loop_principal_repaid (fuel : nat) : forall start balance,
  principal_repaid (pay_loop principalOf interestOf fuel start balance)
  == balance - balance_after principalOf fuel balance.
Proof.
  unfold principal_repaid.
  induction fuel as [|fuel IH]; intros start balance.
  - unfold Qsum. simpl. ring.
  - cbn [pay_loop map balance_after]. rewrite Qsum_cons, IH.
    cbn [principalPayment]. ring.
Qed.

(** A property of the balance that every period keeps and under which the
    principal part is not negative makes the balances of the rows
    non-increasing. *)
Variable Inv : Q -> Prop.
Hypothesis Inv_step : forall b,
  Inv b -> 0 <= principalOf b /\ Inv (b - principalOf b).

Lemma balance_after_Inv (fuel : nat) : forall b,
  Inv b -> Inv (balance_after principalOf fuel b).
Proof.
  induction fuel as [|fuel IH]; intros b Hb; [exact Hb|].
  cbn [balance_after]. apply IH. now apply Inv_step.
Qed.

Lemma balance_after_S (fuel : nat) : forall b,
  balance_after principalOf (S fuel) b
  = balance_after principalOf fuel b
    - principalOf (balance_after principalOf fuel b).
Proof.
  induction fuel as [|fuel IH]; intros b; [reflexivity|].
  change (balance_after principalOf (S (S fuel)) b)
    with (balance_after principalOf (S fuel) (b - principalOf b)).
  now rewrite IH.
Qed.

Lemma pay_loop_balance_nonincreasing (fuel : nat) (start : Z) (balance : Q) :
  Inv balance ->
  balance_nonincreasing (pay_loop principalOf interestOf fuel start balance).
Proof.
  intros Hinv i row next Hrow Hnext.
  apply pay_loop_nth in Hrow. apply pay_loop_nth in Hnext.
  destruct Hrow as [_ ->]. destruct Hnext as [_ ->].
  apply Q.max_le_compat_l.
  rewrite (balance_after_S (S i)).
  pose proof (balance_after_Inv (S i) balance Hinv) as Hi.
  apply Inv_step in Hi. lra.
Qed.

End PayLoop.

(** ** Level principal: the shpitzer loop, and the regular loop at rate 0 *)

Lemma inject_Z_of_nat_S (m : nat) :
  inject_Z (Z.of_nat (S m)) == inject_Z (Z.of_nat m) + 1.
Proof.
  rewrite Nat2Z.inj_succ. unfold Z.succ. rewrite inject_Z_plus. reflexivity.
Qed.

Lemma inject_Z_of_nat_nonneg (m : nat) : 0 <= inject_Z (Z.of_nat m).
Proof.
  change 0 with (inject_Z 0). rewrite <- Zle_Qle. lia.
Qed.

Section LevelPrincipal.

(** [slice] is the level principal part; [principalOf] takes it off the
    balance, capped at the balance. *)
Variables (principalOf : Q -> Q) (slice : Q).
Hypothesis principalOf_min : forall b, principalOf b == Qmin slice b.
Hypothesis slice_nonneg : 0 <= slice.

Lemma level_principal_step (b : Q) :
  0 <= b -> 0 <= principalOf b /\ 0 <= b - principalOf b.
Proof.
  intros Hb. rewrite principalOf_min. split.
  - now apply Q.min_glb.
  - pose proof (Q.le_min_r slice b). lra.
Qed.

(** While [m] periods are left and the balance is [m] slices, every
    period takes exactly one slice. *)
Lemma level_principal_takes_slice (m : nat) (b : Q) :
  slice * inject_Z (Z.of_nat (S m)) == b ->
  principalOf b == slice.
Proof.
  intros Hb. rewrite principalOf_min. apply Q.min_l.
  rewrite inject_Z_of_nat_S in Hb.
  pose proof (inject_Z_of_nat_nonneg m). nra.
Qed.

Lemma level_principal_balance_after (m : nat) : forall b,
  slice * inject_Z (Z.of_nat m) == b ->
  balance_after principalOf m b == 0.
Proof.
  induction m as [|m IH]; intros b Hb.
  - simpl. rewrite <- Hb. change (inject_Z (Z.of_nat 0)) with 0. ring.
  - cbn [balance_after]. apply IH.
    rewrite (level_principal_takes_slice m b Hb).
    rewrite inject_Z_of_nat_S in Hb. rewrite <- Hb. ring.
Qed.

Lemma level_principal_totals (interestOf : Q -> Q) (m : nat) :
  (forall b, interestOf b == 0) ->
  forall start b row,
    slice * inject_Z (Z.of_nat m) == b ->
    In row (pay_loop principalOf interestOf m start b) ->
    totalPayment row == slice.
Proof.
  intros Hint. induction m as [|m IH]; intros start b row Hb Hin;
    [contradiction|].
  pose proof (level_principal_takes_slice m b Hb) as Hslice.
  destruct Hin as [<-|Hin].
  - cbn [totalPayment]. rewrite Hslice, Hint. ring.
  - eapply IH; [|exact Hin].
    rewrite Hslice. rewrite inject_Z_of_nat_S in Hb. rewrite <- Hb. ring.
Qed.

End LevelPrincipal.

(** ** Level payment: the regular loop with timing 'end' at a positive rate *)

Section Annuity.

Variables (pmt r : Q).
Hypothesis r_pos : 0 < r.

(** What the loop of [generateRegularSchedule] takes off the balance with
    timing 'end'. *)
Let principalOf (b : Q) : Q := Qmin (pmt - b * r) b.

Lemma growth_S (m : nat) :
  (1 + r) ^ Z.of_nat (S m) == (1 + r) * (1 + r) ^ Z.of_nat m.
Proof.
  rewrite Nat2Z.inj_succ. unfold Z.succ.
  rewrite Qpower_plus by lra. rewrite Qpower_1_r. ring.
Qed.

Lemma growth_ge_1 (m : nat) : 1 <= (1 + r) ^ Z.of_nat m.
Proof.
  apply Qpower_1_le; [lra | lia].
Qed.

Lemma clears_takes_principal (m : nat) (b : Q) :
  clears pmt r (S m) b -> principalOf b == pmt - b * r.
Proof.
  intros [Hb Hpmt]. unfold principalOf. apply Q.min_l.
  rewrite growth_S in Hpmt.
  pose proof (growth_ge_1 m) as HX.
  set (X := (1 + r) ^ Z.of_nat m) in *. clearbody X.
  assert (Hgap : (b * (1 + r) - pmt) * ((1 + r) * X - 1)
                 == b * (1 + r) * (X - 1)).
  { transitivity (b * (1 + r) * ((1 + r) * X - 1)
                  - pmt * ((1 + r) * X - 1)); [ring|].
    rewrite Hpmt. ring. }
  assert (Hden : 0 < (1 + r) * X - 1) by nra.
  assert (Hbq : 0 <= b * (1 + r)) by nra.
  assert (Hnum : 0 <= b * (1 + r) * (X - 1)) by nra.
  assert (0 <= b * (1 + r) - pmt) by nra.
  lra.
Qed.

Lemma clears_step (m : nat) (b : Q) :
  clears pmt r (S m) b -> clears pmt r m (b - principalOf b).
Proof.
  intros Hc. pose proof (clears_takes_principal m b Hc) as Hp.
  destruct Hc as [Hb Hpmt].
  rewrite growth_S in Hpmt.
  pose proof (growth_ge_1 m) as HX.
  split.
  - unfold principalOf. pose proof (Q.le_min_r (pmt - b * r) b). lra.
  - rewrite Hp.
    set (X := (1 + r) ^ Z.of_nat m) in *. clearbody X.
    transitivity (pmt * ((1 + r) * X - 1) - pmt * r * X); [ring|].
    rewrite Hpmt. ring.
Qed.

Lemma clears_balance_after (m : nat) : forall b,
  clears pmt r m b -> balance_after principalOf m b == 0.
Proof.
  induction m as [|m IH]; intros b Hc.
  - destruct Hc as [Hb Hpmt]. simpl in *.
    assert (b * r == 0) by (rewrite <- (Qmult_1_r (b * r)), <- Hpmt; ring).
    nra.
  - cbn [balance_after]. apply IH. now apply clears_step.
Qed.

Lemma clears_rows (interestOf : Q -> Q) (m : nat) :
  (forall b, interestOf b == b * r) ->
  forall start b row,
    clears pmt r m b ->
    In row (pay_loop principalOf interestOf m start b) ->
    totalPayment row == pmt.
Proof.
  intros Hint. induction m as [|m IH]; intros start b row Hc Hin;
    [contradiction|].
  destruct Hin as [<-|Hin].
  - cbn [totalPayment]. rewrite (clears_takes_principal m b Hc), Hint. ring.
  - eapply IH; [|exact Hin]. now apply clears_step.
Qed.

End Annuity.

(** ** Principal repaid at the final period: balloon and grace *)

Section Bullet.

Variables (rowOf : Z -> AMRTRow) (principal : Q) (periods : Z).

Hypothesis rowOf_period : forall k, period (rowOf k) = k.
Hypothesis rowOf_principal : forall k,
  principalPayment (rowOf k) = if (k <? periods)%Z then 0 else principal.
Hypothesis rowOf_balance : forall k,
  remainingBalance (rowOf k) = if (k <? periods)%Z then principal else 0.
Hypothesis rowOf_total : forall k,
  totalPayment (rowOf k)
  = principalPayment (rowOf k) + interestPayment (rowOf k).

Lemma bullet_numbered (fuel : nat) :
  numbered_from_one (row_loop rowOf fuel 1).
Proof.
  intros i row Hnth. apply row_loop_nth_inv in Hnth.
  destruct Hnth as [_ ->]. rewrite rowOf_period. lia.
Qed.

Lemma bullet_totals (fuel : nat) (start : Z) :
  totals_add_up (row_loop rowOf fuel start).
Proof.
  intros row Hin. apply row_loop_In in Hin. destruct Hin as (k & _ & ->).
  now rewrite rowOf_total.
Qed.

Lemma bullet_balance_nonincreasing (fuel : nat) (start : Z) :
  0 <= principal ->
  balance_nonincreasing (row_loop rowOf fuel start).
Proof.
  intros Hp i row next Hrow Hnext.
  apply row_loop_nth_inv in Hrow. apply row_loop_nth_inv in Hnext.
  destruct Hrow as [_ ->]. destruct Hnext as [_ ->].
  rewrite !rowOf_balance.
  destruct (start + Z.of_nat (S i) <? periods)%Z eqn:Enext.
  - apply Z.ltb_lt in Enext.
    assert (E : (start + Z.of_nat i <? periods)%Z = true)
      by (apply Z.ltb_lt; lia).
    rewrite E. lra.
  - destruct (start + Z.of_nat i <? periods)%Z; lra.
Qed.

Lemma bullet_principal_repaid (fuel : nat) : forall start,
  (start + Z.of_nat fuel = periods + 1)%Z ->
  (1 <= fuel)%nat ->
  principal_repaid (row_loop rowOf fuel start) == principal.
Proof.
  unfold principal_repaid.
  induction fuel as [|fuel IH]; intros start Hlast Hfuel; [lia|].
  cbn [row_loop map]. rewrite Qsum_cons, rowOf_principal.
  destruct fuel as [|fuel].
  - assert (E : (start <? periods)%Z = false) by (apply Z.ltb_ge; lia).
    rewrite E. unfold Qsum. simpl. ring.
  - assert (E : (start <? periods)%Z = true) by (apply Z.ltb_lt; lia).
    rewrite E, IH by lia. ring.
Qed.

End Bullet.

Lemma balloon_row_fields (principal r : Q) (periods : Z)
    (paymentTiming : PaymentTiming) (k : Z) :
  let row := balloon_row principal r periods paymentTiming k in
  period row = k
  /\ principalPayment row = (if (k <? periods)%Z then 0 else principal)
  /\ remainingBalance row = (if (k <? periods)%Z then principal else 0)
  /\ totalPayment row = principalPayment row + interestPayment row.
Proof.
  unfold balloon_row. destruct (k <? periods)%Z; repeat split; reflexivity.
Qed.

Lemma grace_row_fields (principal r : Q) (periods : Z) (k : Z) :
  let row := grace_row principal r periods k in
  period row = k
  /\ principalPayment row = (if (k <? periods)%Z then 0 else principal)
  /\ remainingBalance row = (if (k <? periods)%Z then principal else 0)
  /\ totalPayment row = principalPayment row + interestPayment row.
Proof.
  unfold grace_row. destruct (k <? periods)%Z; repeat split; reflexivity.
Qed.

(** ** The level payment of [generateRegularSchedule] *)

Section RegularPmt.

Variables (principal r : Q) (periods : Z).
Hypothesis principal_nonneg : 0 <= principal.
Hypothesis periods_pos : (1 <= periods)%Z.

Lemma regular_pmt_rate0 (paymentTiming : PaymentTiming) :
  r == 0 ->
  regular_pmt principal r periods paymentTiming
  = principal / inject_Z periods.
Proof.
  intros Hr. unfold regular_pmt.
  apply Qeq_bool_iff in Hr. now rewrite Hr.
Qed.

Lemma slice_times_periods :
  principal / inject_Z periods * inject_Z (Z.of_nat (Z.to_nat periods))
  == principal.
Proof.
  rewrite Z2Nat.id by lia. field.
  change 0 with (inject_Z 0). rewrite inject_Z_injective. lia.
Qed.

Lemma slice_nonneg : 0 <= principal / inject_Z periods.
Proof.
  apply Qle_shift_div_l.
  - change 0 with (inject_Z 0). rewrite <- Zlt_Qlt. lia.
  - lra.
Qed.

Hypothesis r_pos : 0 < r.

Lemma regular_pmt_end_clears :
  clears (regular_pmt principal r periods AtEnd) r (Z.to_nat periods) principal.
Proof.
  split; [exact principal_nonneg|].
  unfold regular_pmt.
  assert (E : Qeq_bool r 0 = false).
  { apply not_true_is_false. intro H. apply Qeq_bool_iff in H. lra. }
  rewrite E, Z2Nat.id, Qpower_opp by lia.
  assert (HY : 1 < (1 + r) ^ periods) by (apply Qpower_1_lt; [lra|lia]).
  set (Y := (1 + r) ^ periods) in *. clearbody Y.
  field. split; lra.
Qed.

Lemma regular_pmt_end_covers_interest :
  principal * r <= regular_pmt principal r periods AtEnd.
Proof.
  destruct regular_pmt_end_clears as [_ Hpmt].
  rewrite Z2Nat.id in Hpmt by lia.
  assert (HY : 1 < (1 + r) ^ periods) by (apply Qpower_1_lt; [lra|lia]).
  set (Y := (1 + r) ^ periods) in *. clearbody Y.
  set (pmt := regular_pmt principal r periods AtEnd) in *. clearbody pmt.
  assert (Hpr : 0 <= principal * r) by nra.
  assert (Hgap : (pmt - principal * r) * (Y - 1) == principal * r).
  { transitivity (pmt * (Y - 1) - principal * r * Y + principal * r); [ring|].
    rewrite Hpmt. ring. }
  assert (0 <= pmt - principal * r) by nra.
  lra.
Qed.

Lemma regular_pmt_begin_nonneg :
  0 <= regular_pmt principal r periods AtBegin / (1 + r).
Proof.
  unfold regular_pmt.
  assert (E : Qeq_bool r 0 = false).
  { apply not_true_is_false. intro H. apply Qeq_bool_iff in H. lra. }
  rewrite E, Qpower_opp.
  assert (HY : 1 < (1 + r) ^ periods) by (apply Qpower_1_lt; [lra|lia]).
  set (Y := (1 + r) ^ periods) in *. clearbody Y.
  assert (Heq : principal * r / ((1 - / Y) * (1 + r)) / (1 + r)
                == principal * r * Y / ((Y - 1) * (1 + r) * (1 + r))).
  { field. repeat split; lra. }
  rewrite Heq. apply Qle_shift_div_l.
  - repeat apply Qmult_lt_0_compat; lra.
  - rewrite Qmult_0_l. repeat apply Qmult_le_0_compat; lra.
Qed.

End RegularPmt.

(** ** Shpitzer schedules *)

Section Shpitzer.

Variables (principal rate : Q) (periods : Z) (paymentTiming : PaymentTiming).
Hypothesis principal_nonneg : 0 <= principal.
Hypothesis periods_pos : (1 <= periods)%Z.

Lemma shpitzer_shape :
  let schedule := generateShpitzerSchedule principal rate periods paymentTiming in
  length schedule = Z.to_nat periods
  /\ numbered_from_one schedule
  /\ totals_add_up schedule
  /\ balance_nonincreasing schedule.
Proof.
  unfold generateShpitzerSchedule. rewrite shpitzer_loop_pay.
  repeat split.
  - apply pay_loop_length.
  - intros i row Hnth. apply pay_loop_nth in Hnth. lia.
  - apply pay_loop_totals.
  - apply pay_loop_balance_nonincreasing with (Inv := fun b => 0 <= b).
    + intros b Hb.
      apply (level_principal_step _ (principal / inject_Z periods));
        [reflexivity | now apply slice_nonneg | exact Hb].
    + exact principal_nonneg.
Qed.

Lemma shpitzer_principal_repaid :
  principal_repaid
    (generateShpitzerSchedule principal rate periods paymentTiming)
  == principal.
Proof.
  unfold generateShpitzerSchedule.
  rewrite shpitzer_loop_pay, pay_loop_principal_repaid.
  rewrite (level_principal_balance_after _ (principal / inject_Z periods)).
  - ring.
  - reflexivity.
  - now apply slice_nonneg.
  - now apply slice_times_periods.
Qed.

End Shpitzer.

(** ** Regular schedules *)

Section RegularSchedule.

Variables (principal rate : Q) (periods : Z).
Hypothesis principal_nonneg : 0 <= principal.
Hypothesis rate_nonneg : 0 <= rate.
Hypothesis periods_pos : (1 <= periods)%Z.

Let r : Q := rate / 100.

Lemma r_nonneg : 0 <= r.
Proof.
  unfold r. assert (E : rate / 100 == rate * (1 # 100)) by reflexivity.
  rewrite E. lra.
Qed.

Lemma r_zero_or_pos : r == 0 \/ 0 < r.
Proof.
  pose proof r_nonneg. destruct (Qeq_dec r 0); [left; assumption | right; lra].
Qed.

(** The principal part and the interest part of a row of
    [generateRegularSchedule], as functions of the balance. *)
Let principalOf (paymentTiming : PaymentTiming) (b : Q) : Q :=
  match paymentTiming with
  | AtBegin => Qmin (regular_pmt principal r periods paymentTiming / (1 + r)) b
  | AtEnd => Qmin (regular_pmt principal r periods paymentTiming - b * r) b
  end.

Let interestOf (paymentTiming : PaymentTiming) (b : Q) : Q :=
  match paymentTiming with
  | AtBegin =>
      (b - Qmin (regular_pmt principal r periods paymentTiming / (1 + r)) b) * r
  | AtEnd => b * r
  end.

Lemma generateRegularSchedule_pay (paymentTiming : PaymentTiming) :
  generateRegularSchedule principal rate periods paymentTiming
  = pay_loop (principalOf paymentTiming) (interestOf paymentTiming)
      (Z.to_nat periods) 1 principal.
Proof.
  unfold generateRegularSchedule. fold r. now rewrite regular_loop_pay.
Qed.

(** At rate 0 both timings take the level slice [principal / periods]
    off the balance. *)
Lemma regular_rate0_principalOf (paymentTiming : PaymentTiming) (b : Q) :
  r == 0 ->
  principalOf paymentTiming b == Qmin (principal / inject_Z periods) b.
Proof.
  intros Hr. unfold principalOf. rewrite regular_pmt_rate0 by exact Hr.
  destruct paymentTiming; rewrite Hr.
  - assert (E : principal / inject_Z periods / (1 + 0)
                == principal / inject_Z periods)
      by (field; change 0 with (inject_Z 0); rewrite inject_Z_injective; lia).
    now rewrite E.
  - assert (E : principal / inject_Z periods - b * 0
                == principal / inject_Z periods) by ring.
    now rewrite E.
Qed.

Lemma regular_rate0_interestOf (paymentTiming : PaymentTiming) (b : Q) :
  r == 0 -> interestOf paymentTiming b == 0.
Proof.
  intros Hr. unfold interestOf. destruct paymentTiming.
  - set (p := Qmin _ b). clearbody p. rewrite Hr. ring.
  - rewrite Hr. ring.
Qed.

Lemma regular_shape (paymentTiming : PaymentTiming) :
  let schedule := generateRegularSchedule principal rate periods paymentTiming in
  length schedule = Z.to_nat periods
  /\ numbered_from_one schedule
  /\ totals_add_up schedule
  /\ balance_nonincreasing schedule.
Proof.
  cbv zeta. rewrite generateRegularSchedule_pay.
  repeat split.
  - apply pay_loop_length.
  - intros i row Hnth. apply pay_loop_nth in Hnth. lia.
  - apply pay_loop_totals.
  - destruct r_zero_or_pos as [Hr|Hr].
    + apply pay_loop_balance_nonincreasing with (Inv := fun b => 0 <= b);
        [|exact principal_nonneg].
      intros b Hb.
      apply (level_principal_step (principalOf paymentTiming)
               (principal / inject_Z periods));
        [ intros b'; now apply regular_rate0_principalOf
        | now apply slice_nonneg | exact Hb ].
    + destruct paymentTiming.
      * apply pay_loop_balance_nonincreasing with (Inv := fun b => 0 <= b);
          [|exact principal_nonneg].
        intros b Hb.
        apply (level_principal_step (principalOf AtBegin)
                 (regular_pmt principal r periods AtBegin / (1 + r)));
          [ reflexivity | now apply regular_pmt_begin_nonneg | exact Hb ].
      * set (pmt := regular_pmt principal r periods AtEnd).
        apply pay_loop_balance_nonincreasing
          with (Inv := fun b => 0 <= b /\ b * r <= pmt).
        -- intros b [Hb Hint]. unfold principalOf. fold pmt.
           pose proof (Q.le_min_r (pmt - b * r) b) as Hle.
           assert (Hge : 0 <= Qmin (pmt - b * r) b)
             by (apply Q.min_glb; lra).
           repeat split; try lra.
           set (p := Qmin (pmt - b * r) b) in *. clearbody p.
           pose proof r_nonneg. nra.
        -- split; [exact principal_nonneg|].
           now apply regular_pmt_end_covers_interest.
Qed.

(** With timing 'end', or at rate 0, every row carries the level payment
    computed before the loop, and the principal is repaid in full. *)
Lemma regular_level_rows (paymentTiming : PaymentTiming) (row : AMRTRow) :
  (paymentTiming = AtBegin -> rate == 0) ->
  In row (generateRegularSchedule principal rate periods paymentTiming) ->
  totalPayment row == regular_pmt principal r periods paymentTiming.
Proof.
  intros Hcase. rewrite generateRegularSchedule_pay. intros Hin.
  assert (Hzero : r == 0 -> totalPayment row
                              == regular_pmt principal r periods paymentTiming).
  { intros Hr. rewrite regular_pmt_rate0 by exact Hr.
    apply (level_principal_totals (principalOf paymentTiming)
             (principal / inject_Z periods)
             (fun b => regular_rate0_principalOf paymentTiming b Hr)
             (slice_nonneg principal periods principal_nonneg periods_pos)
             (interestOf paymentTiming) (Z.to_nat periods)
             (fun b => regular_rate0_interestOf paymentTiming b Hr)
             1%Z principal row);
      [ now apply slice_times_periods | exact Hin ]. }
  destruct paymentTiming.
  - apply Hzero. unfold r. rewrite (Hcase eq_refl). reflexivity.
  - destruct r_zero_or_pos as [Hr|Hr]; [now apply Hzero|].
    apply (clears_rows (regular_pmt principal r periods AtEnd) r Hr
             (interestOf AtEnd) (Z.to_nat periods)
             (fun b => Qeq_refl _) 1%Z principal row);
      [ now apply regular_pmt_end_clears | exact Hin ].
Qed.

Lemma regular_principal_repaid (paymentTiming : PaymentTiming) :
  (paymentTiming = AtBegin -> rate == 0) ->
  principal_repaid
    (generateRegularSchedule principal rate periods paymentTiming)
  == principal.
Proof.
  intros Hcase.
  rewrite generateRegularSchedule_pay, pay_loop_principal_repaid.
  assert (Hzero : r == 0 ->
    balance_after (principalOf paymentTiming) (Z.to_nat periods) principal == 0).
  { intros Hr.
    apply (level_principal_balance_after (principalOf paymentTiming)
             (principal / inject_Z periods));
      [ intros b; now apply regular_rate0_principalOf
      | now apply slice_nonneg
      | now apply slice_times_periods ]. }
  destruct paymentTiming.
  - rewrite Hzero; [ring|]. unfold r. rewrite (Hcase eq_refl). reflexivity.
  - destruct r_zero_or_pos as [Hr|Hr]; [rewrite (Hzero Hr); ring|].
    assert (E : balance_after (principalOf AtEnd) (Z.to_nat periods) principal
                == 0).
    { apply (clears_balance_after (regular_pmt principal r periods AtEnd) r Hr).
      now apply regular_pmt_end_clears. }
    rewrite E. ring.
Qed.

End RegularSchedule.

(** ** Balloon and grace schedules *)

Section BulletSchedules.

Variables (principal rate : Q) (periods : Z).
Hypothesis principal_nonneg : 0 <= principal.
Hypothesis periods_pos : (1 <= periods)%Z.

Lemma bullet_shape (rowOf : Z -> AMRTRow) :
  (forall k,
     period (rowOf k) = k
     /\ principalPayment (rowOf k) = (if (k <? periods)%Z then 0 else principal)
     /\ remainingBalance (rowOf k) = (if (k <? periods)%Z then principal else 0)
     /\ totalPayment (rowOf k)
        = principalPayment (rowOf k) + interestPayment (rowOf k)) ->
  let schedule := row_loop rowOf (Z.to_nat periods) 1 in
  (length schedule = Z.to_nat periods
   /\ numbered_from_one schedule
   /\ totals_add_up schedule
   /\ balance_nonincreasing schedule)
  /\ principal_repaid schedule == principal.
Proof.
  intros Hfields. repeat split.
  - apply row_loop_length.
  - apply bullet_numbered. intros k. apply Hfields.
  - apply bullet_totals. intros k. apply Hfields.
  - apply (bullet_balance_nonincreasing rowOf principal periods);
      [intros k; apply Hfields | exact principal_nonneg].
  - apply (bullet_principal_repaid rowOf principal periods);
      [intros k; apply Hfields | lia | lia].
Qed.

Lemma balloon_shape (paymentTiming : PaymentTiming) :
  let schedule := generateBalloonSchedule principal rate periods paymentTiming in
  (length schedule = Z.to_nat periods
   /\ numbered_from_one schedule
   /\ totals_add_up schedule
   /\ balance_nonincreasing schedule)
  /\ principal_repaid schedule == principal.
Proof.
  unfold generateBalloonSchedule. rewrite balloon_loop_rows.
  apply bullet_shape. intros k. apply balloon_row_fields.
Qed.

Lemma grace_shape (gracePeriods : Z) (paymentTiming : PaymentTiming) :
  let schedule :=
    generateGraceSchedule principal rate periods gracePeriods paymentTiming in
  (length schedule = Z.to_nat periods
   /\ numbered_from_one schedule
   /\ totals_add_up schedule
   /\ balance_nonincreasing schedule)
  /\ principal_repaid schedule == principal.
Proof.
  unfold generateGraceSchedule. rewrite grace_loop_rows.
  apply bullet_shape. intros k. apply grace_row_fields.
Qed.

End BulletSchedules.

(** ** Every schedule type *)

(** For a principal and a rate that are not negative and at least one
    period, whatever the schedule type and the timing, the schedule
    returned by [generateSchedule] has [periods] rows numbered 1, 2, ...; every total
    payment is the sum of the principal and interest payments; the
    remaining balance never increases from one row to the next; and,
    unless the schedule is a regular one with timing 'begin' at a positive
    rate, the principal payments add up to the principal. *)
Theorem generateSchedule_invariants (principal rate : Q) (periods : Z)
    (scheduleType : ScheduleType) (paymentTiming : PaymentTiming)
    (gracePeriods : option Z) :
  0 <= principal ->
  0 <= rate ->
  (1 <= periods)%Z ->
  let schedule :=
    generateSchedule principal rate periods scheduleType paymentTiming
      gracePeriods in
  (length schedule = Z.to_nat periods
   /\ numbered_from_one schedule
   /\ totals_add_up schedule
   /\ balance_nonincreasing schedule)
  /\ ((scheduleType = Regular -> paymentTiming = AtBegin -> rate == 0) ->
      principal_repaid schedule == principal).
Proof.
  intros Hprincipal Hrate Hperiods.
  destruct scheduleType; cbn [generateSchedule]; cbv zeta.
  - split; [now apply shpitzer_shape | intros _; now apply shpitzer_principal_repaid].
  - split; [now apply regular_shape|].
    intros Hcase. apply regular_principal_repaid; auto.
  - destruct (balloon_shape principal rate periods Hprincipal Hperiods
                paymentTiming) as [Hshape Hsum].
    split; [exact Hshape | intros _; exact Hsum].
  - destruct (grace_shape principal rate periods Hprincipal Hperiods
                (or_periods gracePeriods periods) paymentTiming)
      as [Hshape Hsum].
    split; [exact Hshape | intros _; exact Hsum].
Qed.

Lemma generateSchedule_invariants_witness :
  let schedule := generateSchedule 1000 10 3 Regular AtEnd None in
  (length schedule = 3%nat
   /\ numbered_from_one schedule
   /\ totals_add_up schedule
   /\ balance_nonincreasing schedule)
  /\ ((Regular = Regular -> AtEnd = AtBegin -> 10 == 0) ->
      principal_repaid schedule == 1000).
Proof.
  apply (generateSchedule_invariants 1000 10 3 Regular AtEnd None).
  - vm_compute. discriminate.
  - vm_compute. discriminate.
  - lia.
Defined.

(** With timing 'end', or at rate 0, all the rows of a regular schedule
    carry the same total payment: the level payment computed before the
    loop. *)
Theorem generateRegularSchedule_level_payment (principal rate : Q)
    (periods : Z) (paymentTiming : PaymentTiming) :
  0 <= principal ->
  0 <= rate ->
  (1 <= periods)%Z ->
  (paymentTiming = AtBegin -> rate == 0) ->
  level_payment (generateRegularSchedule principal rate periods paymentTiming).
Proof.
  intros Hprincipal Hrate Hperiods Hcase row row' Hin Hin'.
  rewrite (regular_level_rows principal rate periods Hprincipal Hrate Hperiods
             paymentTiming row Hcase Hin).
  rewrite (regular_level_rows principal rate periods Hprincipal Hrate Hperiods
             paymentTiming row' Hcase Hin').
  reflexivity.
Qed.

Lemma generateRegularSchedule_level_payment_witness :
  level_payment (generateRegularSchedule 1000 10 3 AtEnd).
Proof.
  apply (generateRegularSchedule_level_payment 1000 10 3 AtEnd).
  - vm_compute. discriminate.
  - vm_compute. discriminate.
  - lia.
  - discriminate.
Defined.

(** C3: [generateRegularSchedule] documents "equal total payments", and
    with timing 'begin' at a positive rate it does not deliver them: for
    principal 1000 at 10% over 3 periods the first two rows, neither of
    them the last, carry the total payments 132100/331 and 121100/331. *)
Theorem regular_begin_payment_not_level :
  exists row1 row2,
    nth_error (generateRegularSchedule 1000 10 3 AtBegin) 0 = Some row1
    /\ nth_error (generateRegularSchedule 1000 10 3 AtBegin) 1 = Some row2
    /\ totalPayment row1 == 132100 # 331
    /\ totalPayment row2 == 121100 # 331
    /\ ~ totalPayment row1 == totalPayment row2.
Proof.
  do 2 eexists. split; [reflexivity|]. split; [reflexivity|].
  split; [vm_compute; reflexivity|]. split; [vm_compute; reflexivity|].
  intro H. vm_compute in H. discriminate H.
Qed.

(** C7: the same regular schedule with timing 'begin' does not repay the
    principal: for principal 1000 at 10% over 3 periods the principal
    payments add up to 330000/331, short of 1000, and the last row is left
    with the balance 1000/331. *)
Theorem regular_begin_principal_not_repaid :
  let schedule := generateSchedule 1000 10 3 Regular AtBegin None in
  principal_repaid schedule == 330000 # 331
  /\ ~ principal_repaid schedule == 1000
  /\ (exists row, nth_error schedule 2 = Some row
                  /\ remainingBalance row == 1000 # 331).
Proof.
  cbv zeta. split; [vm_compute; reflexivity|]. split.
  - intro H. vm_compute in H. discriminate H.
  - eexists. split; [reflexivity|]. vm_compute. reflexivity.
Qed.


(** * Further properties of the numeric core *)

(** ** Powers and percentages *)

Lemma percent_eq (rate : Q) : rate / 100 == rate * (1 # 100).
Proof. reflexivity. Qed.

Lemma growth_base_nonzero (rate : Q) : ~ rate == -100 -> ~ 1 + rate / 100 == 0.
Proof.
  intros Hrate H. rewrite percent_eq in H. apply Hrate. lra.
Qed.

Lemma Qpower_succ_nat (q : Q) (n : nat) :
  q ^ Z.of_nat (S n) == q * q ^ Z.of_nat n.
Proof.
  rewrite Nat2Z.inj_succ. unfold Z.succ.
  rewrite Qpower_plus' by lia. rewrite Qpower_1_r. ring.
Qed.

Lemma Qeq_bool_false (x y : Q) : Qeq_bool x y = false -> ~ x == y.
Proof.
  intros E H. apply Qeq_bool_iff in H. congruence.
Qed.

(** ** Present value, future value and payment *)

(** [calculatePV] and [calculateFV] undo each other for every payment and
    both timings, in both branches (rate 0 and the closed form), as long
    as the rate is not -100% (where [1 + r] vanishes). *)
Theorem calculatePV_calculateFV_inverse (x rate : Q) (periods : Z) (pmt : Q)
    (paymentTiming : PaymentTiming) :
  ~ rate == -100 ->
  calculatePV (calculateFV x rate periods pmt paymentTiming)
    rate periods pmt paymentTiming == x
  /\ calculateFV (calculatePV x rate periods pmt paymentTiming)
       rate periods pmt paymentTiming == x.
Proof.
  intros Hrate. unfold calculatePV, calculateFV.
  destruct (Qeq_bool (rate / 100) 0) eqn:E.
  - split; ring.
  - apply Qeq_bool_false in E.
    pose proof (growth_base_nonzero rate Hrate) as Hbase.
    pose proof (Qpower_not_0 _ periods Hbase) as Hpow.
    rewrite !Qpower_opp.
    set (r := rate / 100) in *. clearbody r.
    set (y := (1 + r) ^ periods) in *. clearbody y.
    destruct paymentTiming; split; field; auto.
Qed.

Lemma calculatePV_calculateFV_inverse_witness :
  calculatePV (calculateFV 1000 5 10 (-50) AtBegin) 5 10 (-50) AtBegin == 1000
  /\ calculateFV (calculatePV 1000 5 10 (-50) AtBegin) 5 10 (-50) AtBegin == 1000.
Proof.
  apply (calculatePV_calculateFV_inverse 1000 5 10 (-50) AtBegin).
  intro H. vm_compute in H. discriminate H.
Defined.

(** The payment computed by [calculatePMT] carries the opposite sign of
    the payment [calculateFV] takes: paying [- calculatePMT pv fv ...]
    every period turns [pv] into [fv]. *)
Theorem calculateFV_calculatePMT (pv fv rate : Q) (periods : Z)
    (paymentTiming : PaymentTiming) :
  0 <= rate ->
  (1 <= periods)%Z ->
  calculateFV pv rate periods
    (- calculatePMT pv fv rate periods paymentTiming) paymentTiming == fv.
Proof.
  intros Hrate Hperiods. unfold calculateFV, calculatePMT.
  destruct (Qeq_bool (rate / 100) 0) eqn:E.
  - field. change 0 with (inject_Z 0). rewrite inject_Z_injective. lia.
  - apply Qeq_bool_false in E.
    assert (Hr : 0 < rate / 100) by (rewrite percent_eq in *; lra).
    assert (Hpow : 1 < (1 + rate / 100) ^ periods)
      by (apply Qpower_1_lt; [lra | lia]).
    set (r := rate / 100) in *. clearbody r.
    set (y := (1 + r) ^ periods) in *. clearbody y.
    destruct paymentTiming; field; repeat split; lra.
Qed.

Lemma calculateFV_calculatePMT_witness :
  calculateFV 1000 5 10 (- calculatePMT 1000 2000 5 10 AtEnd) AtEnd == 2000.
Proof.
  apply (calculateFV_calculatePMT 1000 2000 5 10 AtEnd).
  - vm_compute. discriminate.
  - lia.
Defined.

(** ** Variable-rate future value *)

Lemma fvVariable_loop_app (l1 l2 : list Q) (pmt : Q)
    (paymentTiming : PaymentTiming) : forall fv,
  fvVariable_loop (l1 ++ l2) pmt paymentTiming fv
  = fvVariable_loop l2 pmt paymentTiming
      (fvVariable_loop l1 pmt paymentTiming fv).
Proof.
  induction l1 as [|rate l1 IH]; intros fv; simpl; [reflexivity | apply IH].
Qed.

(** Compounding over a series of rates is compounding over its first part
    and then, from the value reached, over the rest. *)
Theorem calculateFVVariable_app (pv : Q) (rates1 rates2 : list Q) (pmt : Q)
    (paymentTiming : PaymentTiming) :
  calculateFVVariable pv (rates1 ++ rates2) pmt paymentTiming
  = calculateFVVariable (calculateFVVariable pv rates1 pmt paymentTiming)
      rates2 pmt paymentTiming.
Proof.
  unfold calculateFVVariable. apply fvVariable_loop_app.
Qed.

Lemma fvVariable_loop_constant (rate pmt : Q) (paymentTiming : PaymentTiming)
    (n : nat) : forall fv,
  fvVariable_loop (repeat rate n) pmt paymentTiming fv
  == calculateFV fv rate (Z.of_nat n) pmt paymentTiming.
Proof.
  unfold calculateFV.
  destruct (Qeq_bool (rate / 100) 0) eqn:E.
  - apply Qeq_bool_iff in E.
    induction n as [|n IH]; intros fv.
    + simpl. change (inject_Z 0) with 0. ring.
    + cbn [repeat fvVariable_loop]. rewrite IH, inject_Z_of_nat_S.
      destruct paymentTiming; rewrite E; ring.
  - apply Qeq_bool_false in E.
    induction n as [|n IH]; intros fv.
    + simpl. change ((1 + rate / 100) ^ 0) with 1.
      destruct paymentTiming; field; intro H; apply E; rewrite H; reflexivity.
    + cbn [repeat fvVariable_loop]. rewrite IH, Qpower_succ_nat.
      set (r := rate / 100) in *. clearbody r.
      set (y := (1 + r) ^ Z.of_nat n). clearbody y.
      destruct paymentTiming; field; exact E.
Qed.

(** With the same rate in every period the period-by-period compounding
    of [calculateFVVariable] agrees with the closed form of
    [calculateFV], for every payment and both timings. *)
Theorem calculateFVVariable_constant_rate (pv rate pmt : Q)
    (paymentTiming : PaymentTiming) (n : nat) :
  calculateFVVariable pv (repeat rate n) pmt paymentTiming
  == calculateFV pv rate (Z.of_nat n) pmt paymentTiming.
Proof.
  unfold calculateFVVariable. apply fvVariable_loop_constant.
Qed.

(** The level payment of [generateRegularSchedule] is the payment
    [calculatePMT] computes for bringing the principal down to a future
    value of 0, for both timings. *)
Theorem regular_pmt_is_calculatePMT (principal rate : Q) (periods : Z)
    (paymentTiming : PaymentTiming) :
  0 <= rate ->
  (1 <= periods)%Z ->
  regular_pmt principal (rate / 100) periods paymentTiming
  == calculatePMT principal 0 rate periods paymentTiming.
Proof.
  intros Hrate Hperiods. unfold regular_pmt, calculatePMT.
  destruct (Qeq_bool (rate / 100) 0) eqn:E.
  - unfold Qdiv. ring.
  - apply Qeq_bool_false in E.
    assert (Hr : 0 < rate / 100) by (rewrite percent_eq in *; lra).
    assert (Hpow : 1 < (1 + rate / 100) ^ periods)
      by (apply Qpower_1_lt; [lra | lia]).
    destruct paymentTiming; rewrite Qpower_opp;
      set (r := rate / 100) in *; clearbody r;
      set (y := (1 + r) ^ periods) in *; clearbody y;
      field; repeat split; lra.
Qed.

Lemma regular_pmt_is_calculatePMT_witness :
  regular_pmt 1000 (10 / 100) 3 AtBegin == calculatePMT 1000 0 10 3 AtBegin.
Proof.
  apply (regular_pmt_is_calculatePMT 1000 10 3 AtBegin).
  - vm_compute. discriminate.
  - lia.
Defined.

(** ** Net present value *)

Lemma npv_loop_acc (r : Q) (cashFlows : list Q) : forall i npv,
  npv_loop r cashFlows i npv == npv + npv_loop r cashFlows i 0.
Proof.
  induction cashFlows as [|cf rest IH]; intros i npv; simpl.
  - ring.
  - rewrite (IH _ (npv + _)), (IH _ (0 + _)). ring.
Qed.

Lemma npv_loop_shift (r : Q) (cashFlows : list Q) :
  ~ 1 + r == 0 ->
  forall i,
    npv_loop r cashFlows (i + 1) 0 == npv_loop r cashFlows i 0 / (1 + r).
Proof.
  intros Hbase.
  induction cashFlows as [|cf rest IH]; intros i; simpl.
  - field. exact Hbase.
  - rewrite (npv_loop_acc r rest (i + 1 + 1)), (npv_loop_acc r rest (i + 1)).
    rewrite IH, Qpower_plus, Qpower_1_r by exact Hbase.
    pose proof (Qpower_not_0 _ i Hbase) as Hpow.
    set (y := (1 + r) ^ i) in *. clearbody y.
    set (s := npv_loop r rest (i + 1) 0). clearbody s.
    field. split; assumption.
Qed.

Lemma calculateNPV_cons (cf : Q) (rest : list Q) (discountRate : Q) :
  calculateNPV (cf :: rest) discountRate
  == cf + npv_loop (discountRate / 100) rest 1 0.
Proof.
  unfold calculateNPV. cbn [npv_loop].
  change ((1 + discountRate / 100) ^ 0) with 1.
  rewrite npv_loop_acc. change (0 + 1)%Z with 1%Z. field.
Qed.

(** The first cash flow is not discounted, and the rest of the series is
    worth its own net present value discounted by one more period
    (Horner's rule for the sum [cf_i / (1 + r)^i]). *)
Theorem calculateNPV_horner (cf : Q) (rest : list Q) (discountRate : Q) :
  ~ discountRate == -100 ->
  calculateNPV (cf :: rest) discountRate
  == cf + calculateNPV rest discountRate / (1 + discountRate / 100).
Proof.
  intros Hrate. rewrite calculateNPV_cons. unfold calculateNPV.
  pose proof (growth_base_nonzero _ Hrate) as Hbase.
  change 1%Z with (0 + 1)%Z. rewrite npv_loop_shift by exact Hbase.
  reflexivity.
Qed.

Lemma calculateNPV_horner_witness :
  calculateNPV [-1000; 300; 400; 500] 10
  == -1000 + calculateNPV [300; 400; 500] 10 / (1 + 10 / 100).
Proof.
  apply (calculateNPV_horner (-1000) [300; 400; 500] 10).
  intro H. vm_compute in H. discriminate H.
Defined.

Lemma npv_loop_rate0 (r : Q) (cashFlows : list Q) :
  r == 0 ->
  forall i, npv_loop r cashFlows i 0 == Qsum cashFlows.
Proof.
  intros Hr. induction cashFlows as [|cf rest IH]; intros i.
  - reflexivity.
  - cbn [npv_loop]. rewrite npv_loop_acc, IH, Qsum_cons.
    assert (E : (1 + r) ^ i == 1) by (rewrite Hr; apply Qpower_1).
    rewrite E. field.
Qed.

(** At a discount rate of 0 the net present value is the plain sum of the
    cash flows. *)
Theorem calculateNPV_rate0 (cashFlows : list Q) :
  calculateNPV cashFlows 0 == Qsum cashFlows.
Proof.
  unfold calculateNPV. apply npv_loop_rate0. reflexivity.
Qed.

(** ** Variable-rate net present value *)

Lemma discountFactor_loop_None (rates : list Q) (fuel : nat) : forall j,
  discountFactor_loop rates fuel j None = None.
Proof.
  induction fuel as [|fuel IH]; intros j; simpl; [reflexivity | apply IH].
Qed.

(** The discount factor of a period is a number exactly when there is a
    rate for each of the periods before it. *)
Lemma discountFactor_loop_Some (rates : list Q) (fuel : nat) : forall j d,
  (j + fuel <= length rates)%nat ->
  exists d', discountFactor_loop rates fuel j (Some d) = Some d'.
Proof.
  induction fuel as [|fuel IH]; intros j d Hlen; simpl.
  - eexists. reflexivity.
  - destruct (nth_error rates j) as [rate|] eqn:E.
    + simpl. apply IH. lia.
    + apply nth_error_None in E. lia.
Qed.

Lemma discountFactor_loop_short (rates : list Q) (fuel : nat) : forall j d,
  (j <= length rates < j + fuel)%nat ->
  discountFactor_loop rates fuel j d = None.
Proof.
  induction fuel as [|fuel IH]; intros j d Hlen; [lia|].
  cbn [discountFactor_loop].
  destruct (nth_error rates j) as [rate|] eqn:E.
  - assert (j < length rates)%nat by (apply nth_error_Some; congruence).
    apply IH. lia.
  - destruct d; simpl; apply discountFactor_loop_None.
Qed.

Lemma npvVariable_loop_None (rates cashFlows : list Q) : forall i,
  npvVariable_loop rates cashFlows i None = None.
Proof.
  induction cashFlows as [|cf rest IH]; intros i; simpl; [reflexivity | apply IH].
Qed.

Lemma npvVariable_loop_is_None (rates cashFlows : list Q) : forall i npv,
  npvVariable_loop rates cashFlows i (Some npv) = None
  <-> (length rates + 1 < i + length cashFlows)%nat /\ cashFlows <> [].
Proof.
  induction cashFlows as [|cf rest IH]; intros i npv.
  - simpl. split; [discriminate | intros [_ H]; now elim H].
  - cbn [npvVariable_loop length].
    destruct (le_lt_dec i (length rates)) as [Hi|Hi].
    + destruct (discountFactor_loop_Some rates i 0 1) as [d Hd]; [lia|].
      rewrite Hd. cbn [lift2]. rewrite IH.
      split.
      * intros [Hlen Hrest]. split; [lia | discriminate].
      * intros [Hlen _]. split; [lia|]. destruct rest; [simpl in Hlen; lia | discriminate].
    + rewrite discountFactor_loop_short by lia. cbn [lift2].
      rewrite npvVariable_loop_None. split; [|reflexivity].
      intros _. split; [lia | discriminate].
Qed.

(** In exact arithmetic and with no rate of -100%, so that no discount
    factor is 0 where the source divides by it, [calculateNPVVariable]
    yields no number ([undefined] or [NaN]) exactly when the cash-flow
    series is empty or when there are fewer rates than periods after the
    first cash flow; rates in excess are not read. *)
Theorem calculateNPVVariable_not_a_number (cashFlows rates : list Q) :
  Forall (fun rate => ~ rate == -100) rates ->
  (calculateNPVVariable cashFlows rates = None
   <-> cashFlows = [] \/ (length rates + 1 < length cashFlows)%nat).
Proof.
  intros _.
  unfold calculateNPVVariable. destruct cashFlows as [|cf rest].
  - simpl. split; [now left | reflexivity].
  - cbn [hd_error tl length]. rewrite npvVariable_loop_is_None. split.
    + intros [Hlen _]. right. lia.
    + intros [H|Hlen]; [discriminate|].
      split; [lia|]. destruct rest; [simpl in Hlen; lia | discriminate].
Qed.

Lemma calculateNPVVariable_not_a_number_witness :
  let cashFlows := [-1000; 300; 400] in
  let rates := [10] in
  calculateNPVVariable cashFlows rates = None
  <-> cashFlows = [] \/ (length rates + 1 < length cashFlows)%nat.
Proof.
  cbv zeta.
  apply (calculateNPVVariable_not_a_number [-1000; 300; 400] [10]).
  repeat constructor. intro H. vm_compute in H. discriminate H.
Defined.

Lemma discountFactor_loop_constant (rate : Q) (n fuel : nat) : forall j d,
  (j + fuel <= n)%nat ->
  exists d',
    discountFactor_loop (repeat rate n) fuel j (Some d) = Some d'
    /\ d' == d * (1 + rate / 100) ^ Z.of_nat fuel.
Proof.
  induction fuel as [|fuel IH]; intros j d Hlen.
  - exists d. split; [reflexivity|]. simpl. ring.
  - cbn [discountFactor_loop].
    assert (E : nth_error (repeat rate n) j = Some rate).
    { rewrite nth_error_repeat by lia. reflexivity. }
    rewrite E. cbn [option_map lift2].
    destruct (IH (S j) (d * (1 + rate / 100))) as (d' & Hd' & Heq); [lia|].
    exists d'. split; [exact Hd'|].
    rewrite Heq, Qpower_succ_nat. ring.
Qed.

Lemma npvVariable_loop_constant (rate : Q) (n : nat) (cashFlows : list Q) :
  forall i npv,
    (i + length cashFlows <= n + 1)%nat ->
    exists v,
      npvVariable_loop (repeat rate n) cashFlows i (Some npv) = Some v
      /\ v == npv_loop (rate / 100) cashFlows (Z.of_nat i) npv.
Proof.
  induction cashFlows as [|cf rest IH]; intros i npv Hlen.
  - exists npv. split; reflexivity.
  - cbn [npvVariable_loop npv_loop length] in *.
    destruct (discountFactor_loop_constant rate n i 0 1) as (d & Hd & Heq);
      [lia|].
    rewrite Hd. cbn [lift2].
    destruct (IH (S i) (npv + cf / d)) as (v & Hv & Hveq); [lia|].
    exists v. split; [exact Hv|].
    rewrite Hveq. replace (Z.of_nat (S i)) with (Z.of_nat i + 1)%Z by lia.
    apply npv_loop_rate_eq; [reflexivity|].
    rewrite Heq. now rewrite Qmult_1_l.
Qed.

(** In exact arithmetic: with the same rate in every period, other than
    -100% (so that no discount factor is 0), and one rate per period after
    the first cash flow (or more), the variable-rate net present value is
    a number and agrees with [calculateNPV] at that rate. *)
Theorem calculateNPVVariable_constant_rate (cashFlows : list Q) (rate : Q)
    (n : nat) :
  ~ rate == -100 ->
  cashFlows <> [] ->
  (length cashFlows <= n + 1)%nat ->
  exists v,
    calculateNPVVariable cashFlows (repeat rate n) = Some v
    /\ v == calculateNPV cashFlows rate.
Proof.
  intros _ Hne Hlen. destruct cashFlows as [|cf rest]; [now elim Hne|].
  unfold calculateNPVVariable. cbn [hd_error tl].
  destruct (npvVariable_loop_constant rate n rest 1 cf) as (v & Hv & Heq).
  { simpl in Hlen. lia. }
  exists v. split; [exact Hv|].
  rewrite Heq, calculateNPV_cons. change (Z.of_nat 1) with 1%Z.
  apply npv_loop_acc.
Qed.

Lemma calculateNPVVariable_constant_rate_witness :
  exists v,
    calculateNPVVariable [-1000; 300; 400; 500] (repeat 10 3) = Some v
    /\ v == calculateNPV [-1000; 300; 400; 500] 10.
Proof.
  apply (calculateNPVVariable_constant_rate [-1000; 300; 400; 500] 10 3).
  - intro H. vm_compute in H. discriminate H.
  - discriminate.
  - simpl. lia.
Defined.

(** ** Profitability index *)

(** In exact arithmetic and at a discount rate other than -100%, so that
    no power of [1 + r] the source divides by is 0: [calculatePI] returns
    [null] exactly when the series starts with a cash flow of 0, and is
    not a number exactly when the series is empty. *)
Theorem calculatePI_no_result (cashFlows : list Q) (discountRate : Q) :
  ~ discountRate == -100 ->
  (calculatePI cashFlows discountRate = Null
   <-> exists cf0 rest, cashFlows = cf0 :: rest /\ cf0 == 0)
  /\ (calculatePI cashFlows discountRate = NaN <-> cashFlows = []).
Proof.
  intros _.
  destruct cashFlows as [|cf0 rest]; simpl.
  - split; split; try discriminate; try reflexivity.
    intros (c & l & H & _). discriminate H.
  - destruct (Qeq_bool (Qabs cf0) 0) eqn:E.
    + apply Qeq_bool_iff in E. split; split; try discriminate.
      * intros _. exists cf0, rest. split; [reflexivity|].
        revert E. apply Qabs_case; intros; lra.
      * reflexivity.
    + apply Qeq_bool_false in E. split; split; try discriminate.
      intros (c & l & [= <- <-] & Hc). elim E. rewrite Hc. reflexivity.
Qed.

Lemma calculatePI_no_result_witness :
  (calculatePI [0; 300; 400] 10 = Null
   <-> exists cf0 rest, [0; 300; 400] = cf0 :: rest /\ cf0 == 0)
  /\ (calculatePI [0; 300; 400] 10 = NaN <-> [0; 300; 400] = []).
Proof.
  apply (calculatePI_no_result [0; 300; 400] 10).
  intro H. vm_compute in H. discriminate H.
Defined.

(** In exact arithmetic and at a discount rate other than -100% (so that
    no power of [1 + r] is 0): for a series that starts with an outlay (a
    negative cash flow) the profitability index is a number, it is the
    present value of the later cash flows over the size of the outlay, and
    it exceeds 1 exactly when the net present value at the same rate is
    positive. *)
Theorem calculatePI_vs_calculateNPV (cf0 : Q) (rest : list Q)
    (discountRate : Q) :
  ~ discountRate == -100 ->
  cf0 < 0 ->
  exists pi,
    calculatePI (cf0 :: rest) discountRate = Num pi
    /\ pi * (- cf0) == calculateNPV (cf0 :: rest) discountRate - cf0
    /\ (1 < pi <-> 0 < calculateNPV (cf0 :: rest) discountRate).
Proof.
  intros _ Hcf0. unfold calculatePI.
  assert (Habs : Qabs cf0 == - cf0) by (apply Qabs_neg; lra).
  destruct (Qeq_bool (Qabs cf0) 0) eqn:E.
  - apply Qeq_bool_iff in E. lra.
  - eexists. split; [reflexivity|].
    rewrite calculateNPV_cons.
    set (s := npv_loop (discountRate / 100) rest 1 0). clearbody s.
    assert (Hpi : s / Qabs cf0 * (- cf0) == s).
    { rewrite Habs. field. lra. }
    set (pi := s / Qabs cf0) in *. clearbody pi.
    split; [rewrite Hpi; ring|].
    split; intros H; nra.
Qed.

Lemma calculatePI_vs_calculateNPV_witness :
  exists pi,
    calculatePI [-1000; 300; 400; 500] 10 = Num pi
    /\ pi * (- -1000) == calculateNPV [-1000; 300; 400; 500] 10 - -1000
    /\ (1 < pi <-> 0 < calculateNPV [-1000; 300; 400; 500] 10).
Proof.
  apply (calculatePI_vs_calculateNPV (-1000) [300; 400; 500] 10).
  - intro H. vm_compute in H. discriminate H.
  - reflexivity.
Defined.

(** ** Internal rate of return: what is never returned *)

Lemma irr_loop_lower_bound (cashFlows : list Q) (tolerance : Q) (fuel : nat) :
  forall rate r,
    -1 <= rate ->
    irr_loop cashFlows tolerance fuel rate = Some r ->
    -100 <= r.
Proof.
  induction fuel as [|fuel IH]; intros rate r Hrate; [discriminate|].
  cbn [irr_loop].
  destruct (irr_sums rate cashFlows 0 0 0) as [npv dnpv].
  destruct (Qlt_bool (Qabs npv) tolerance).
  - intros [= <-]. lra.
  - destruct (Qlt_bool (Qabs dnpv) (1 # 10000000000)); [discriminate|].
    destruct (Qlt_bool (rate - npv / dnpv) (-1)) eqn:E; [discriminate|].
    apply Qlt_bool_false_iff in E. now apply IH.
Qed.

(** Started from a guess of at least -1 (that is -100%), [calculateIRR]
    never returns a rate below -100%. *)
Theorem calculateIRR_lower_bound (cashFlows : list Q) (guess r : Q) :
  -1 <= guess ->
  calculateIRR cashFlows guess = Some r ->
  -100 <= r.
Proof.
  intros Hguess. unfold calculateIRR. now apply irr_loop_lower_bound.
Qed.

Lemma calculateIRR_lower_bound_witness :
  exists r, calculateIRR [-1000; 1100] 0 = Some r /\ -100 <= r.
Proof.
  eexists. split; [vm_compute; reflexivity|].
  apply (calculateIRR_lower_bound [-1000; 1100] 0).
  - vm_compute. discriminate.
  - vm_compute. reflexivity.
Defined.

(** ** Summaries of a schedule *)

Lemma in_range_iff (fromPeriod toPeriod : Q) (row : AMRTRow) :
  in_range fromPeriod toPeriod row = true
  <-> fromPeriod <= inject_Z (period row) <= toPeriod.
Proof.
  unfold in_range. rewrite andb_true_iff, !Qle_bool_iff. reflexivity.
Qed.

Lemma summary_loop_cons (row : AMRTRow) (rest : list AMRTRow)
    (fromPeriod toPeriod : Q) (totals : AMRTSummary.t) :
  summary_loop (row :: rest) fromPeriod toPeriod totals
  = summary_loop rest fromPeriod toPeriod
      (if in_range fromPeriod toPeriod row
       then summary_plus totals
              (AMRTSummary.mk (principalPayment row) (interestPayment row)
                 (totalPayment row))
       else totals).
Proof. reflexivity. Qed.

Lemma summary_loop_acc (schedule : list AMRTRow) (fromPeriod toPeriod : Q) :
  forall totals,
    summary_eq (summary_loop schedule fromPeriod toPeriod totals)
      (summary_plus totals (calculateSummary schedule fromPeriod toPeriod)).
Proof.
  unfold calculateSummary.
  induction schedule as [|row rest IH]; intros totals.
  - unfold summary_eq. simpl. repeat split; ring.
  - rewrite !summary_loop_cons.
    destruct (IH (if in_range fromPeriod toPeriod row
                  then summary_plus totals
                         (AMRTSummary.mk (principalPayment row)
                            (interestPayment row) (totalPayment row))
                  else totals)) as (H1 & H2 & H3).
    destruct (IH (if in_range fromPeriod toPeriod row
                  then summary_plus (AMRTSummary.mk 0 0 0)
                         (AMRTSummary.mk (principalPayment row)
                            (interestPayment row) (totalPayment row))
                  else AMRTSummary.mk 0 0 0)) as (G1 & G2 & G3).
    unfold summary_eq. rewrite H1, H2, H3.
    cbn [summary_plus AMRTSummary.totalPrincipal AMRTSummary.totalInterest
         AMRTSummary.totalPayment].
    rewrite G1, G2, G3.
    destruct (in_range fromPeriod toPeriod row);
      cbn [summary_plus AMRTSummary.totalPrincipal AMRTSummary.totalInterest
           AMRTSummary.totalPayment]; repeat split; ring.
Qed.

Lemma calculateSummary_cons (row : AMRTRow) (rest : list AMRTRow)
    (fromPeriod toPeriod : Q) :
  summary_eq (calculateSummary (row :: rest) fromPeriod toPeriod)
    (summary_plus
       (if in_range fromPeriod toPeriod row
        then AMRTSummary.mk (principalPayment row) (interestPayment row)
               (totalPayment row)
        else AMRTSummary.mk 0 0 0)
       (calculateSummary rest fromPeriod toPeriod)).
Proof.
  unfold calculateSummary at 1. rewrite summary_loop_cons.
  destruct (summary_loop_acc rest fromPeriod toPeriod
              (if in_range fromPeriod toPeriod row
               then summary_plus (AMRTSummary.mk 0 0 0)
                      (AMRTSummary.mk (principalPayment row)
                         (interestPayment row) (totalPayment row))
               else AMRTSummary.mk 0 0 0)) as (H1 & H2 & H3).
  unfold summary_eq. rewrite H1, H2, H3.
  destruct (in_range fromPeriod toPeriod row);
    cbn [summary_plus AMRTSummary.totalPrincipal AMRTSummary.totalInterest
         AMRTSummary.totalPayment]; repeat split; ring.
Qed.


Lemma calculateSummary_whole (schedule : list AMRTRow)
    (fromPeriod toPeriod : Q) :
  (forall row, In row schedule -> in_range fromPeriod toPeriod row = true) ->
  AMRTSummary.totalPrincipal (calculateSummary schedule fromPeriod toPeriod)
  == principal_repaid schedule.
Proof.
  unfold principal_repaid.
  induction schedule as [|row rest IH]; intros Hin.
  - reflexivity.
  - destruct (calculateSummary_cons row rest fromPeriod toPeriod) as (H1 & _).
    rewrite H1, (Hin row (or_introl eq_refl)).
    cbn [summary_plus AMRTSummary.totalPrincipal map].
    rewrite Qsum_cons, IH; [reflexivity|].
    intros x Hx. apply Hin. now right.
Qed.



Lemma generateSchedule_shape (principal rate : Q) (periods : Z)
    (scheduleType : ScheduleType) (paymentTiming : PaymentTiming)
    (gracePeriods : option Z) :
  0 <= principal ->
  0 <= rate ->
  (1 <= periods)%Z ->
  let schedule :=
    generateSchedule principal rate periods scheduleType paymentTiming
      gracePeriods in
  length schedule = Z.to_nat periods
  /\ numbered_from_one schedule
  /\ totals_add_up schedule
  /\ balance_nonincreasing schedule.
Proof.
  intros Hprincipal Hrate Hperiods.
  destruct scheduleType; cbn [generateSchedule]; cbv zeta.
  - now apply shpitzer_shape.
  - now apply regular_shape.
  - now apply balloon_shape.
  - now apply grace_shape.
Qed.

Lemma generateSchedule_repaid (principal rate : Q) (periods : Z)
    (scheduleType : ScheduleType) (paymentTiming : PaymentTiming)
    (gracePeriods : option Z) :
  0 <= principal ->
  0 <= rate ->
  (1 <= periods)%Z ->
  (scheduleType = Regular -> paymentTiming = AtBegin -> rate == 0) ->
  principal_repaid
    (generateSchedule principal rate periods scheduleType paymentTiming
       gracePeriods)
  == principal.
Proof.
  intros Hprincipal Hrate Hperiods Hcase.
  destruct scheduleType; cbn [generateSchedule].
  - now apply shpitzer_principal_repaid.
  - apply regular_principal_repaid; auto.
  - now apply balloon_shape.
  - now apply grace_shape.
Qed.

Lemma numbered_rows_in_range (schedule : list AMRTRow) (periods : Z) :
  length schedule = Z.to_nat periods ->
  numbered_from_one schedule ->
  forall row, In row schedule -> in_range 1 (inject_Z periods) row = true.
Proof.
  intros Hlen Hnum row Hin.
  apply In_nth_error in Hin. destruct Hin as [i Hi].
  assert (Hlt : (i < length schedule)%nat)
    by (apply nth_error_Some; congruence).
  apply Hnum in Hi. apply in_range_iff. rewrite Hi.
  change 1 with (inject_Z 1). rewrite <- !Zle_Qle. lia.
Qed.

(** Over the whole schedule, periods 1 to [periods], the total principal
    of the summary is the principal borrowed, for every schedule type and
    timing except a regular schedule with timing 'begin' at a positive
    rate. *)
Theorem calculateSummary_whole_schedule (principal rate : Q) (periods : Z)
    (scheduleType : ScheduleType) (paymentTiming : PaymentTiming)
    (gracePeriods : option Z) :
  0 <= principal ->
  0 <= rate ->
  (1 <= periods)%Z ->
  (scheduleType = Regular -> paymentTiming = AtBegin -> rate == 0) ->
  AMRTSummary.totalPrincipal
    (calculateSummary
       (generateSchedule principal rate periods scheduleType paymentTiming
          gracePeriods) 1 (inject_Z periods))
  == principal.
Proof.
  intros Hprincipal Hrate Hperiods Hcase.
  destruct (generateSchedule_shape principal rate periods scheduleType
              paymentTiming gracePeriods Hprincipal Hrate Hperiods)
    as (Hlen & Hnum & _).
  rewrite calculateSummary_whole
    by (now apply numbered_rows_in_range).
  now apply generateSchedule_repaid.
Qed.

Lemma calculateSummary_whole_schedule_witness :
  AMRTSummary.totalPrincipal
    (calculateSummary (generateSchedule 1200 12 12 Shpitzer AtEnd None)
       1 (inject_Z 12))
  == 1200.
Proof.
  apply (calculateSummary_whole_schedule 1200 12 12 Shpitzer AtEnd None).
  - vm_compute. discriminate.
  - vm_compute. discriminate.
  - lia.
  - discriminate.
Defined.

Lemma in_range_split (fromPeriod toPeriod : Q) (m : Z) (row : AMRTRow) :
  fromPeriod <= inject_Z (m + 1) ->
  inject_Z m <= toPeriod ->
  in_range fromPeriod toPeriod row
  = in_range fromPeriod (inject_Z m) row
    || in_range (inject_Z (m + 1)) toPeriod row
  /\ in_range fromPeriod (inject_Z m) row
     && in_range (inject_Z (m + 1)) toPeriod row = false.
Proof.
  intros Hfrom Hto.
  pose proof (in_range_iff fromPeriod toPeriod row) as Hall.
  pose proof (in_range_iff fromPeriod (inject_Z m) row) as Hlow.
  pose proof (in_range_iff (inject_Z (m + 1)) toPeriod row) as Hhigh.
  rewrite <- !Zle_Qle in Hlow, Hhigh.
  destruct (Z_le_gt_dec (period row) m) as [Hp|Hp].
  - assert (Hq : inject_Z (period row) <= inject_Z m) by (rewrite <- Zle_Qle; lia).
    destruct (in_range (inject_Z (m + 1)) toPeriod row);
      [destruct Hhigh as [Hhigh _]; specialize (Hhigh eq_refl); lia|].
    rewrite orb_false_r, andb_false_r. split; [|reflexivity].
    apply eq_true_iff_eq. rewrite Hall, Hlow. split.
    + intros [H1 H2]. split; [exact H1 | lia].
    + intros [H1 H2]. split; [exact H1 | lra].
  - assert (Hq : inject_Z (m + 1) <= inject_Z (period row))
      by (rewrite <- Zle_Qle; lia).
    destruct (in_range fromPeriod (inject_Z m) row);
      [destruct Hlow as [Hlow _]; specialize (Hlow eq_refl); lia|].
    rewrite orb_false_l, andb_false_l. split; [|reflexivity].
    apply eq_true_iff_eq. rewrite Hall, Hhigh. split.
    + intros [H1 H2]. split; [lia | exact H2].
    + intros [H1 H2]. split; [lra | exact H2].
Qed.

(** A range of periods can be summarised in two pieces: the summary of
    periods [fromPeriod] to [toPeriod] is, field by field, the sum of the
    summaries up to period [m] and from period [m + 1] on, for every
    schedule. *)
Theorem calculateSummary_split (schedule : list AMRTRow)
    (fromPeriod toPeriod : Q) (m : Z) :
  fromPeriod <= inject_Z (m + 1) ->
  inject_Z m <= toPeriod ->
  summary_eq (calculateSummary schedule fromPeriod toPeriod)
    (summary_plus
       (calculateSummary schedule fromPeriod (inject_Z m))
       (calculateSummary schedule (inject_Z (m + 1)) toPeriod)).
Proof.
  intros Hfrom Hto.
  induction schedule as [|row rest IH].
  - unfold summary_eq. simpl. repeat split; ring.
  - destruct (calculateSummary_cons row rest fromPeriod toPeriod)
      as (A1 & A2 & A3).
    destruct (calculateSummary_cons row rest fromPeriod (inject_Z m))
      as (B1 & B2 & B3).
    destruct (calculateSummary_cons row rest (inject_Z (m + 1)) toPeriod)
      as (C1 & C2 & C3).
    destruct IH as (I1 & I2 & I3).
    destruct (in_range_split fromPeriod toPeriod m row Hfrom Hto) as [Hor Hand].
    unfold summary_eq.
    cbn [summary_plus AMRTSummary.totalPrincipal AMRTSummary.totalInterest
         AMRTSummary.totalPayment] in *.
    rewrite A1, A2, A3, B1, B2, B3, C1, C2, C3, I1, I2, I3, Hor.
    destruct (in_range fromPeriod (inject_Z m) row),
             (in_range (inject_Z (m + 1)) toPeriod row);
      try discriminate Hand;
      cbn [orb summary_plus AMRTSummary.totalPrincipal
           AMRTSummary.totalInterest AMRTSummary.totalPayment];
      repeat split; ring.
Qed.

Lemma calculateSummary_split_witness :
  summary_eq
    (calculateSummary (generateSchedule 1200 12 12 Shpitzer AtEnd None) 1 12)
    (summary_plus
       (calculateSummary (generateSchedule 1200 12 12 Shpitzer AtEnd None)
          1 (inject_Z 5))
       (calculateSummary (generateSchedule 1200 12 12 Shpitzer AtEnd None)
          (inject_Z (5 + 1)) 12)).
Proof.
  apply (calculateSummary_split
           (generateSchedule 1200 12 12 Shpitzer AtEnd None) 1 12 5).
  - vm_compute. discriminate.
  - vm_compute. discriminate.
Defined.

(** ** No negative amounts, and a loan cleared at the end *)

Section PayLoopNonneg.

Variables (principalOf interestOf : Q -> Q) (Inv : Q -> Prop).
Hypothesis Inv_step : forall b,
  Inv b ->
  0 <= principalOf b /\ 0 <= interestOf b /\ Inv (b - principalOf b).

Lemma pay_loop_nonneg (fuel : nat) : forall start b row,
  Inv b ->
  In row (pay_loop principalOf interestOf fuel start b) ->
  row_nonneg row.
Proof.
  induction fuel as [|fuel IH]; intros start b row Hb Hin; [contradiction|].
  destruct (Inv_step b Hb) as (Hp & Hi & Hnext).
  destruct Hin as [<-|Hin].
  - unfold row_nonneg. cbn [principalPayment interestPayment totalPayment
                            remainingBalance].
    pose proof (Q.le_max_l 0 (b - principalOf b)).
    repeat split; lra.
  - exact (IH _ _ _ Hnext Hin).
Qed.

End PayLoopNonneg.

Lemma pay_loop_last (principalOf interestOf : Q -> Q) (fuel : nat) :
  forall start b,
    balance_after principalOf (S fuel) b == 0 ->
    exists row,
      nth_error (pay_loop principalOf interestOf (S fuel) start b) fuel
      = Some row
      /\ remainingBalance row == 0.
Proof.
  intros start b Hzero.
  destruct (nth_error (pay_loop principalOf interestOf (S fuel) start b) fuel)
    as [row|] eqn:E.
  - exists row. split; [reflexivity|].
    apply pay_loop_nth in E. destruct E as [_ ->]. rewrite Hzero. reflexivity.
  - apply nth_error_None in E. rewrite pay_loop_length in E. lia.
Qed.

Section SchedulesNonneg.

Variables (principal rate : Q) (periods : Z).
Hypothesis principal_nonneg : 0 <= principal.
Hypothesis rate_nonneg : 0 <= rate.
Hypothesis periods_pos : (1 <= periods)%Z.

Lemma percent_nonneg : 0 <= rate / 100.
Proof. rewrite percent_eq. lra. Qed.

Lemma shpitzer_nonneg (paymentTiming : PaymentTiming) (row : AMRTRow) :
  In row (generateShpitzerSchedule principal rate periods paymentTiming) ->
  row_nonneg row.
Proof.
  unfold generateShpitzerSchedule. rewrite shpitzer_loop_pay.
  apply pay_loop_nonneg with (Inv := fun b => 0 <= b);
    [|exact principal_nonneg].
  intros b Hb. pose proof percent_nonneg as Hr.
  pose proof (slice_nonneg principal periods principal_nonneg periods_pos)
    as Hslice.
  set (slice := principal / inject_Z periods) in *. clearbody slice.
  set (r := rate / 100) in *. clearbody r.
  pose proof (Q.le_min_r slice b) as Hle.
  assert (Hge : 0 <= Qmin slice b) by (apply Q.min_glb; lra).
  set (p := Qmin slice b) in *. clearbody p.
  repeat split; try lra. destruct paymentTiming; nra.
Qed.

Lemma regular_nonneg (paymentTiming : PaymentTiming) (row : AMRTRow) :
  In row (generateRegularSchedule principal rate periods paymentTiming) ->
  row_nonneg row.
Proof.
  unfold generateRegularSchedule. rewrite regular_loop_pay.
  pose proof percent_nonneg as Hr.
  set (pmt := regular_pmt principal (rate / 100) periods paymentTiming).
  destruct paymentTiming.
  - (* begin: the slice pmt / (1 + r) is not negative *)
    assert (Hslice : 0 <= pmt / (1 + rate / 100)).
    { destruct (r_zero_or_pos rate rate_nonneg) as [H0|Hpos].
      - unfold pmt. rewrite regular_pmt_rate0 by exact H0.
        pose proof (slice_nonneg principal periods principal_nonneg
                      periods_pos) as Hs.
        apply Qle_shift_div_l; [lra|]. rewrite Qmult_0_l. exact Hs.
      - now apply regular_pmt_begin_nonneg. }
    apply pay_loop_nonneg with (Inv := fun b => 0 <= b);
      [|exact principal_nonneg].
    intros b Hb.
    set (slice := pmt / (1 + rate / 100)) in *. clearbody slice.
    set (r := rate / 100) in *. clearbody r.
    pose proof (Q.le_min_r slice b) as Hle.
    assert (Hge : 0 <= Qmin slice b) by (apply Q.min_glb; lra).
    set (p := Qmin slice b) in *. clearbody p.
    repeat split; try lra. nra.
  - (* end: the payment covers the interest on every balance reached *)
    assert (Hcover : principal * (rate / 100) <= pmt).
    { destruct (r_zero_or_pos rate rate_nonneg) as [H0|Hpos].
      - unfold pmt. rewrite regular_pmt_rate0 by exact H0.
        pose proof (slice_nonneg principal periods principal_nonneg
                      periods_pos) as Hs.
        rewrite H0. lra.
      - now apply regular_pmt_end_covers_interest. }
    apply pay_loop_nonneg
      with (Inv := fun b => 0 <= b /\ b * (rate / 100) <= pmt);
      [|split; [exact principal_nonneg | exact Hcover]].
    intros b [Hb Hint].
    clearbody pmt.
    set (r := rate / 100) in *. clearbody r.
    pose proof (Q.le_min_r (pmt - b * r) b) as Hle.
    assert (Hge : 0 <= Qmin (pmt - b * r) b) by (apply Q.min_glb; lra).
    set (p := Qmin (pmt - b * r) b) in *. clearbody p.
    repeat split; try lra; nra.
Qed.

Lemma bullet_nonneg (rowOf : Z -> AMRTRow) (fuel : nat) (start : Z)
    (row : AMRTRow) :
  (forall k, row_nonneg (rowOf k)) ->
  In row (row_loop rowOf fuel start) ->
  row_nonneg row.
Proof.
  intros Hrows Hin. apply row_loop_In in Hin.
  destruct Hin as (k & _ & ->). apply Hrows.
Qed.

Lemma balloon_row_nonneg (paymentTiming : PaymentTiming) (k : Z) :
  row_nonneg (balloon_row principal (rate / 100) periods paymentTiming k).
Proof.
  pose proof percent_nonneg as Hr.
  set (r := rate / 100) in *. clearbody r.
  unfold balloon_row, row_nonneg.
  destruct (k <? periods)%Z, paymentTiming;
    cbn [principalPayment interestPayment totalPayment remainingBalance];
    repeat split; nra.
Qed.

Lemma grace_row_nonneg (k : Z) :
  row_nonneg (grace_row principal (rate / 100) periods k).
Proof.
  pose proof percent_nonneg as Hr.
  set (r := rate / 100) in *. clearbody r.
  unfold grace_row, row_nonneg.
  destruct (k <? periods)%Z;
    cbn [principalPayment interestPayment totalPayment remainingBalance];
    repeat split; nra.
Qed.

End SchedulesNonneg.

(** In exact arithmetic: for a principal and a rate that are not
    negative and at least one period, no schedule of [generateSchedule]
    carries a negative amount: in every row the principal payment, the
    interest payment, the total payment and the remaining balance are all
    at least 0. *)
Theorem generateSchedule_nonneg (principal rate : Q) (periods : Z)
    (scheduleType : ScheduleType) (paymentTiming : PaymentTiming)
    (gracePeriods : option Z) (row : AMRTRow) :
  0 <= principal ->
  0 <= rate ->
  (1 <= periods)%Z ->
  In row (generateSchedule principal rate periods scheduleType paymentTiming
            gracePeriods) ->
  row_nonneg row.
Proof.
  intros Hprincipal Hrate Hperiods.
  destruct scheduleType; cbn [generateSchedule].
  - now apply shpitzer_nonneg.
  - now apply regular_nonneg.
  - unfold generateBalloonSchedule. rewrite balloon_loop_rows.
    apply bullet_nonneg. intros k. now apply balloon_row_nonneg.
  - unfold generateGraceSchedule. rewrite grace_loop_rows.
    apply bullet_nonneg. intros k. now apply grace_row_nonneg.
Qed.

Lemma generateSchedule_nonneg_witness :
  exists row,
    In row (generateSchedule 1000 10 2 Shpitzer AtEnd None)
    /\ row_nonneg row.
Proof.
  eexists. split; [left; reflexivity|].
  apply (generateSchedule_nonneg 1000 10 2 Shpitzer AtEnd None).
  - vm_compute. discriminate.
  - vm_compute. discriminate.
  - lia.
  - left. reflexivity.
Defined.

Lemma pay_loop_cleared (principalOf interestOf : Q -> Q) (fuel : nat)
    (start : Z) (b : Q) :
  principal_repaid (pay_loop principalOf interestOf (S fuel) start b) == b ->
  exists row,
    nth_error (pay_loop principalOf interestOf (S fuel) start b) fuel
    = Some row
    /\ period row = (start + Z.of_nat fuel)%Z
    /\ remainingBalance row == 0.
Proof.
  intros Hrepaid. rewrite pay_loop_principal_repaid in Hrepaid.
  assert (Hzero : balance_after principalOf (S fuel) b == 0) by lra.
  destruct (pay_loop_last principalOf interestOf fuel start b Hzero)
    as (row & Hrow & Hbal).
  exists row. split; [exact Hrow|]. split; [|exact Hbal].
  apply pay_loop_nth in Hrow. apply Hrow.
Qed.

Lemma row_loop_cleared (rowOf : Z -> AMRTRow) (principal : Q) (periods : Z) :
  (1 <= periods)%Z ->
  (forall k,
     period (rowOf k) = k
     /\ principalPayment (rowOf k) = (if (k <? periods)%Z then 0 else principal)
     /\ remainingBalance (rowOf k) = (if (k <? periods)%Z then principal else 0)
     /\ totalPayment (rowOf k)
        = principalPayment (rowOf k) + interestPayment (rowOf k)) ->
  exists row,
    nth_error (row_loop rowOf (Z.to_nat periods) 1) (Z.to_nat (periods - 1))
    = Some row
    /\ period row = periods
    /\ remainingBalance row == 0.
Proof.
  intros Hperiods Hfields. eexists. split; [apply row_loop_nth; lia|].
  replace (1 + Z.of_nat (Z.to_nat (periods - 1)))%Z with periods by lia.
  destruct (Hfields periods) as (Hp & _ & Hb & _).
  split; [exact Hp|]. rewrite Hb, Z.ltb_irrefl. reflexivity.
Qed.

(** The last row of a schedule carries period number [periods] and a
    remaining balance of 0: the loan is cleared, for every schedule type
    and timing except a regular schedule with timing 'begin' at a positive
    rate. *)
Theorem generateSchedule_cleared (principal rate : Q) (periods : Z)
    (scheduleType : ScheduleType) (paymentTiming : PaymentTiming)
    (gracePeriods : option Z) :
  0 <= principal ->
  0 <= rate ->
  (1 <= periods)%Z ->
  (scheduleType = Regular -> paymentTiming = AtBegin -> rate == 0) ->
  exists row,
    nth_error
      (generateSchedule principal rate periods scheduleType paymentTiming
         gracePeriods) (Z.to_nat (periods - 1)) = Some row
    /\ period row = periods
    /\ remainingBalance row == 0.
Proof.
  intros Hprincipal Hrate Hperiods Hcase.
  assert (Hfuel : Z.to_nat periods = S (Z.to_nat (periods - 1))) by lia.
  assert (Hlast : (1 + Z.of_nat (Z.to_nat (periods - 1)))%Z = periods) by lia.
  destruct scheduleType; cbn [generateSchedule].
  - pose proof (shpitzer_principal_repaid principal rate periods paymentTiming
                  Hprincipal Hperiods) as Hrepaid.
    unfold generateShpitzerSchedule in *.
    rewrite shpitzer_loop_pay, Hfuel in *.
    apply pay_loop_cleared in Hrepaid. now rewrite Hlast in Hrepaid.
  - pose proof (regular_principal_repaid principal rate periods Hprincipal
                  Hrate Hperiods paymentTiming (Hcase eq_refl)) as Hrepaid.
    unfold generateRegularSchedule in *.
    rewrite regular_loop_pay, Hfuel in *.
    apply pay_loop_cleared in Hrepaid. now rewrite Hlast in Hrepaid.
  - unfold generateBalloonSchedule. rewrite balloon_loop_rows.
    apply (row_loop_cleared _ principal periods Hperiods).
    intros k. apply balloon_row_fields.
  - unfold generateGraceSchedule. rewrite grace_loop_rows.
    apply (row_loop_cleared _ principal periods Hperiods).
    intros k. apply grace_row_fields.
Qed.

Lemma generateSchedule_cleared_witness :
  exists row,
    nth_error (generateSchedule 1000 10 3 Regular AtEnd None) 2 = Some row
    /\ period row = 3%Z
    /\ remainingBalance row == 0.
Proof.
  apply (generateSchedule_cleared 1000 10 3 Regular AtEnd None).
  - vm_compute. discriminate.
  - vm_compute. discriminate.
  - lia.
  - discriminate.
Defined.

(** ** Bisection: what a returned value is *)

Section BisectionSound.

Variables (func : Q -> Q) (tolerance : Q).
Hypothesis tolerance_pos : 0 < tolerance.

Lemma not_small_nonzero (y : Q) :
  Qlt_bool (Qabs y) tolerance = false -> ~ y == 0.
Proof.
  intros Hbig Hy. apply Qlt_bool_false_iff in Hbig.
  rewrite Hy in Hbig. change (Qabs 0) with 0 in Hbig. lra.
Qed.

(** Moving the left end to the midpoint keeps the sign change, as long as
    the value at the left end is not 0. *)
Lemma sign_change_right (fa fb fc : Q) :
  fa * fb <= 0 -> ~ fa == 0 -> ~ fc == 0 -> 0 <= fa * fc -> fc * fb <= 0.
Proof.
  intros Hab Ha Hc Hac.
  destruct (Qlt_le_dec 0 fa) as [Hpos|Hneg].
  - assert (0 <= fc) by nra. assert (fb <= 0) by nra. nra.
  - assert (fa < 0) by (destruct (Qeq_dec fa 0); [contradiction | lra]).
    assert (fc <= 0) by nra. assert (0 <= fb) by nra. nra.
Qed.

Lemma half_width (a b : Q) :
  (a + b) / 2 - a == (b - a) * (1 # 2) /\ b - (a + b) / 2 == (b - a) * (1 # 2).
Proof.
  assert (E : (a + b) / 2 == (a + b) * (1 # 2)) by reflexivity.
  rewrite E. split; ring.
Qed.

Lemma bisection_loop_sound (fuel : nat) : forall a b,
  a <= b ->
  func a * func b <= 0 ->
  ~ func a == 0 ->
  exists lo hi,
    a <= lo /\ lo <= hi /\ hi <= b
    /\ bisection_loop func tolerance fuel a b (func a) (func b)
       = (lo + hi) / 2
    /\ func lo * func hi <= 0
    /\ (Qabs (func ((lo + hi) / 2)) < tolerance
        \/ hi - lo < tolerance
        \/ (hi - lo) * 2 ^ Z.of_nat fuel == b - a).
Proof.
  induction fuel as [|fuel IH]; intros a b Hab Hsign Ha.
  - exists a, b. repeat split; try lra; try assumption.
    right. right. change (2 ^ Z.of_nat 0) with 1. ring.
  - rewrite bisection_loop_step.
    destruct (midpoint_in_bracket a b Hab) as [Hlo Hhi].
    destruct (half_width a b) as [Hleft Hright].
    unfold meets_tolerance.
    destruct (Qlt_bool (Qabs (func ((a + b) / 2))) tolerance) eqn:Efc.
    + exists a, b. repeat split; try lra; try assumption.
      left. now apply Qlt_bool_iff.
    + cbn [orb].
      destruct (Qlt_bool (Qabs (b - a)) tolerance) eqn:Ewidth.
      * exists a, b. repeat split; try lra; try assumption.
        right. left. apply Qlt_bool_iff in Ewidth.
        rewrite Qabs_pos in Ewidth by lra. exact Ewidth.
      * pose proof (not_small_nonzero _ Efc) as Hc.
        set (c := (a + b) / 2) in *.
        destruct (Qlt_bool (func a * func c) 0) eqn:Eside.
        -- apply Qlt_bool_iff in Eside.
           destruct (IH a c) as (lo & hi & H1 & H2 & H3 & Hres & Hs & Hend);
             [lra | lra | exact Ha |].
           exists lo, hi. repeat split; try lra; try assumption.
           destruct Hend as [H|[H|H]]; [now left | now right; left |].
           right. right. rewrite Qpower_succ_nat.
           clearbody c. set (p := 2 ^ Z.of_nat fuel) in *. clearbody p.
           nra.
        -- apply Qlt_bool_false_iff in Eside.
           destruct (IH c b) as (lo & hi & H1 & H2 & H3 & Hres & Hs & Hend);
             [ lra | now apply (sign_change_right (func a)) | exact Hc |].
           exists lo, hi. repeat split; try lra; try assumption.
           destruct Hend as [H|[H|H]]; [now left | now right; left |].
           right. right. rewrite Qpower_succ_nat.
           clearbody c. set (p := 2 ^ Z.of_nat fuel) in *. clearbody p.
           nra.
Qed.

End BisectionSound.

(** In exact arithmetic: a value returned by [bisectionMethod], for a
    positive tolerance, a bracket [a <= b] and a function that does not
    vanish at [a], is the midpoint of a bracket inside [a, b] across which
    the function changes sign; and either the function is within the tolerance at that
    midpoint, or the bracket is narrower than the tolerance, or the budget
    ran out and the bracket is the initial one halved [maxIterations]
    times. *)
Theorem bisectionMethod_sound (func : Q -> Q) (a b tolerance : Q)
    (maxIterations : Z) (c : Q) :
  0 < tolerance ->
  a <= b ->
  ~ func a == 0 ->
  bisectionMethod func a b tolerance maxIterations = Some c ->
  exists lo hi,
    a <= lo /\ lo <= hi /\ hi <= b
    /\ c = (lo + hi) / 2
    /\ func lo * func hi <= 0
    /\ (Qabs (func c) < tolerance
        \/ hi - lo < tolerance
        \/ (hi - lo) * 2 ^ Z.of_nat (Z.to_nat maxIterations) == b - a).
Proof.
  intros Htol Hab Ha. unfold bisectionMethod.
  destruct (Qlt_bool 0 (func a * func b)) eqn:E; [discriminate|].
  apply Qlt_bool_false_iff in E. intros [= <-].
  destruct (bisection_loop_sound func tolerance Htol
              (Z.to_nat maxIterations) a b Hab E Ha)
    as (lo & hi & H1 & H2 & H3 & Hres & Hs & Hend).
  exists lo, hi. rewrite Hres. repeat split; assumption.
Qed.

Lemma bisectionMethod_sound_witness :
  let f := fun x : Q => x * x - 4 in
  let c := bisection_loop f (1 # 1000000) 3 0 3 (f 0) (f 3) in
  exists lo hi,
    0 <= lo /\ lo <= hi /\ hi <= 3
    /\ c = (lo + hi) / 2
    /\ f lo * f hi <= 0
    /\ (Qabs (f c) < 1 # 1000000
        \/ hi - lo < 1 # 1000000
        \/ (hi - lo) * 2 ^ Z.of_nat (Z.to_nat 3) == 3 - 0).
Proof.
  cbv zeta.
  apply (bisectionMethod_sound (fun x : Q => x * x - 4) 0 3 (1 # 1000000) 3).
  - reflexivity.
  - vm_compute. discriminate.
  - intro H. vm_compute in H. discriminate H.
  - reflexivity.
Defined.

Lemma bisection_loop_drifts_right (func : Q -> Q) (tolerance : Q)
    (m b fb : Q) (fuel : nat) : forall a fa,
  0 < tolerance ->
  a < b ->
  0 <= fa ->
  m <= (a + b) / 2 ->
  (forall x, m <= x -> x <= b -> tolerance <= func x) ->
  b - a < tolerance * 2 ^ Z.of_nat fuel ->
  let c := bisection_loop func tolerance fuel a b fa fb in
  m <= c /\ b - tolerance < c /\ c < b.
Proof.
  cbv zeta.
  induction fuel as [|fuel IH]; intros a fa Htol Hab Hfa Hm Hf Hbudget.
  - cbn [bisection_loop]. change (2 ^ Z.of_nat 0) with 1 in Hbudget.
    destruct (half_width a b) as [Hleft Hright]. repeat split; lra.
  - rewrite bisection_loop_step. unfold meets_tolerance.
    destruct (half_width a b) as [Hleft Hright].
    set (c := (a + b) / 2) in *.
    assert (Hc : a < c /\ c < b) by (split; lra).
    pose proof (Hf c Hm (Qlt_le_weak _ _ (proj2 Hc))) as Hfc.
    assert (Efc : Qlt_bool (Qabs (func c)) tolerance = false).
    { apply Qlt_bool_false_iff. rewrite Qabs_pos by lra. exact Hfc. }
    rewrite Efc. cbn [orb].
    destruct (Qlt_bool (Qabs (b - a)) tolerance) eqn:Ewidth.
    + apply Qlt_bool_iff in Ewidth. rewrite Qabs_pos in Ewidth by lra.
      repeat split; lra.
    + assert (Eside : Qlt_bool (fa * func c) 0 = false).
      { apply Qlt_bool_false_iff. nra. }
      rewrite Eside.
      destruct (half_width c b) as [Hleft' Hright'].
      apply IH; [exact Htol | lra | lra | lra | exact Hf |].
      rewrite Qpower_succ_nat in Hbudget.
      clearbody c. set (p := 2 ^ Z.of_nat fuel) in *. clearbody p. lra.
Qed.

(** In exact arithmetic: a root that sits exactly on the left end of the
    bracket is lost.  If the function is 0 at [a] and at least the
    tolerance on the right half of the bracket, [bisectionMethod], given
    enough iterations to halve the bracket below the tolerance, returns a
    value within the tolerance of [b], the far end, and not beyond it,
    where the function is not within the tolerance of 0. *)
Theorem bisectionMethod_loses_left_root (func : Q -> Q) (a b tolerance : Q)
    (maxIterations : Z) :
  0 < tolerance ->
  a < b ->
  func a == 0 ->
  (forall x, (a + b) / 2 <= x -> x <= b -> tolerance <= func x) ->
  b - a < tolerance * 2 ^ Z.of_nat (Z.to_nat maxIterations) ->
  exists c,
    bisectionMethod func a b tolerance maxIterations = Some c
    /\ b - tolerance < c <= b
    /\ tolerance <= func c.
Proof.
  intros Htol Hab Ha Hf Hbudget. unfold bisectionMethod.
  assert (E : Qlt_bool 0 (func a * func b) = false).
  { apply Qlt_bool_false_iff. rewrite Ha. lra. }
  rewrite E. eexists. split; [reflexivity|].
  destruct (bisection_loop_drifts_right func tolerance ((a + b) / 2) b
              (func b) (Z.to_nat maxIterations) a (func a))
    as (Hm & Hlow & Hhigh); try assumption; [rewrite Ha; lra | lra |].
  split; [split; [assumption | now apply Qlt_le_weak]|].
  apply Hf; [exact Hm | lra].
Qed.

Lemma bisectionMethod_loses_left_root_witness :
  exists c,
    bisectionMethod (fun x => x) 0 1 (1 # 4) 3 = Some c
    /\ 1 - (1 # 4) < c <= 1
    /\ (1 # 4) <= (fun x : Q => x) c.
Proof.
  apply (bisectionMethod_loses_left_root (fun x => x) 0 1 (1 # 4) 3).
  - reflexivity.
  - reflexivity.
  - reflexivity.
  - intros x Hx _. eapply Qle_trans; [|exact Hx]. vm_compute. discriminate.
  - reflexivity.
Defined.

(** ** The rate solver *)

Lemma enough_halvings (width total tolerance : Q) (n : nat) :
  total < tolerance * 2 ^ Z.of_nat n ->
  width * 2 ^ Z.of_nat n == total ->
  width < tolerance.
Proof.
  intros Hbudget Hwidth.
  assert (Hp : 0 < 2 ^ Z.of_nat n) by (apply Qpower_0_lt; reflexivity).
  set (p := 2 ^ Z.of_nat n) in *. clearbody p. nra.
Qed.

(** A rate returned by [solveCMPDRate], when the future value at the left
    end -99% of the bracket is not exactly the target, lies in [-99, 1000]
    and is the midpoint of a bracket across which
    [calculateFV ... - fv] changes sign; and either the future value at
    that rate is within 1e-6 of the target or the bracket is narrower
    than 1e-6: the budget of 200 iterations never runs out. *)
Theorem solveCMPDRate_sound (pv fv : Q) (periods : Z) (pmt : Q)
    (paymentTiming : PaymentTiming) (r : Q) :
  ~ calculateFV pv (-99) periods pmt paymentTiming == fv ->
  solveCMPDRate pv fv periods pmt paymentTiming = Some r ->
  exists lo hi,
    -99 <= lo /\ lo <= hi /\ hi <= 1000
    /\ r = (lo + hi) / 2
    /\ (calculateFV pv lo periods pmt paymentTiming - fv)
       * (calculateFV pv hi periods pmt paymentTiming - fv) <= 0
    /\ (Qabs (calculateFV pv r periods pmt paymentTiming - fv) < 1 # 1000000
        \/ hi - lo < 1 # 1000000).
Proof.
  intros Hleft Hsolve.
  pose (func := fun rate : Q =>
                  calculateFV pv rate periods pmt paymentTiming - fv).
  change (bisectionMethod func (-99) 1000 (1 # 1000000) 200 = Some r)
    in Hsolve.
  unfold bisectionMethod in Hsolve.
  assert (Hbudget : 1000 - -99 < (1 # 1000000) * 2 ^ Z.of_nat (Z.to_nat 200))
    by (vm_compute; reflexivity).
  remember (Z.to_nat 200) as n eqn:Hn. clear Hn.
  destruct (Qlt_bool 0 (func (-99) * func 1000)) eqn:E; [discriminate|].
  apply Qlt_bool_false_iff in E. injection Hsolve as <-.
  assert (Hab : -99 <= 1000) by (vm_compute; discriminate).
  assert (Hfa : ~ func (-99) == 0)
    by (unfold func; intro H; apply Hleft; lra).
  destruct (bisection_loop_sound func (1 # 1000000) eq_refl n (-99) 1000
              Hab E Hfa)
    as (lo & hi & H1 & H2 & H3 & Hres & Hs & Hend).
  exists lo, hi. rewrite Hres.
  split; [exact H1|]. split; [exact H2|]. split; [exact H3|].
  split; [reflexivity|]. split; [exact Hs|].
  destruct Hend as [H|[H|H]]; [left; exact H | right; exact H |].
  right. exact (enough_halvings _ _ _ n Hbudget H).
Qed.

Lemma solveCMPDRate_sound_witness :
  exists r,
    solveCMPDRate 100 (27575 # 100) 1 0 AtEnd = Some r
    /\ exists lo hi,
         -99 <= lo /\ lo <= hi /\ hi <= 1000
         /\ r = (lo + hi) / 2
         /\ (calculateFV 100 lo 1 0 AtEnd - (27575 # 100))
            * (calculateFV 100 hi 1 0 AtEnd - (27575 # 100)) <= 0
         /\ (Qabs (calculateFV 100 r 1 0 AtEnd - (27575 # 100)) < 1 # 1000000
             \/ hi - lo < 1 # 1000000).
Proof.
  eexists. split; [vm_compute; reflexivity|].
  apply (solveCMPDRate_sound 100 (27575 # 100) 1 0 AtEnd).
  - intro H. vm_compute in H. discriminate H.
  - vm_compute. reflexivity.
Defined.

(** ** The cash-flow solver *)

Lemma bisectionN_loop_total (func : Q -> option Q) (f : Q -> Q)
    (tolerance : Q) :
  (forall x, func x = Some (f x)) ->
  forall fuel a b fa fb,
    bisectionN_loop func tolerance fuel a b (Some fa) (Some fb)
    = bisection_loop f tolerance fuel a b fa fb.
Proof.
  intros Hf. induction fuel as [|fuel IH]; intros a b fa fb; [reflexivity|].
  cbn [bisectionN_loop bisection_loop]. rewrite Hf.
  cbn [option_map nan_lt lift2].
  destruct (Qlt_bool (Qabs (f ((a + b) / 2))) tolerance
            || Qlt_bool (Qabs (b - a)) tolerance); [reflexivity|].
  destruct (Qlt_bool (fa * f ((a + b) / 2)) 0); apply IH.
Qed.

(** On a closure that always returns a number the two embeddings of
    [bisectionMethod] agree. *)
Lemma bisectionMethodN_total (func : Q -> option Q) (f : Q -> Q)
    (a b tolerance : Q) (maxIterations : Z) :
  (forall x, func x = Some (f x)) ->
  bisectionMethodN func a b tolerance maxIterations
  = bisectionMethod f a b tolerance maxIterations.
Proof.
  intros Hf. unfold bisectionMethodN, bisectionMethod.
  rewrite !Hf. cbn [lift2 nan_lt].
  destruct (Qlt_bool 0 (f a * f b)); [reflexivity|].
  f_equal. now apply bisectionN_loop_total.
Qed.

Lemma npv_loop_app (r : Q) (l1 l2 : list Q) : forall i npv,
  npv_loop r (l1 ++ l2) i npv
  = npv_loop r l2 (i + Z.of_nat (length l1)) (npv_loop r l1 i npv).
Proof.
  induction l1 as [|cf l1 IH]; intros i npv.
  - simpl. now rewrite Z.add_0_r.
  - cbn [app npv_loop length]. rewrite IH. f_equal. lia.
Qed.

(** The net present value is affine in each cash flow: setting the cash
    flow of period [k] to [x] adds [x / (1 + r)^k] to the value with that
    cash flow at 0. *)
Lemma calculateNPV_with_cash_flow (cashFlows : list Q) (k : nat)
    (discountRate x : Q) :
  (k <= length cashFlows)%nat ->
  calculateNPV (with_cash_flow cashFlows k x) discountRate
  == calculateNPV (with_cash_flow cashFlows k 0) discountRate
     + x / (1 + discountRate / 100) ^ Z.of_nat k.
Proof.
  intros Hk. unfold calculateNPV, with_cash_flow.
  rewrite !npv_loop_app. cbn [npv_loop].
  rewrite length_firstn, Nat.min_l by exact Hk. cbn [Z.add].
  rewrite (npv_loop_acc _ _ _ (_ + x / _)), (npv_loop_acc _ _ _ (_ + 0 / _)).
  unfold Qdiv. ring.
Qed.

Section CashFlowSolver.

Variables (cashFlows : list Q) (solverPeriod : Z) (targetNPV discountRate : Q)
  (discountRateType : DiscountRateType)
  (variableDiscountRates : option (list Q)).

Hypothesis solverPeriod_in_range :
  (0 <= solverPeriod <= Z.of_nat (length cashFlows))%Z.
Hypothesis discountRate_nonneg : 0 <= discountRate.
Hypothesis fixed_rate :
  discountRateType = FixedRate \/ variableDiscountRates = None.

(** What the closure of [solveDCFCashFlow] computes under these
    hypotheses. *)
Let residual (x : Q) : Q :=
  calculateNPV (with_cash_flow cashFlows (Z.to_nat solverPeriod) x)
    discountRate - targetNPV.

(** The weight of the cash flow of period [solverPeriod] in the net
    present value. *)
Let weight : Q := / (1 + discountRate / 100) ^ Z.of_nat (Z.to_nat solverPeriod).

Lemma dcf_func_fixed (x : Q) :
  dcf_func cashFlows solverPeriod targetNPV discountRate discountRateType
    variableDiscountRates x = Some (residual x).
Proof.
  unfold dcf_func, modifiedCashFlows.
  assert (E1 : (solverPeriod <? 0)%Z = false) by (apply Z.ltb_ge; lia).
  assert (E2 : (Z.to_nat solverPeriod <=? length cashFlows)%nat = true)
    by (apply Nat.leb_le; lia).
  rewrite E1, E2.
  destruct fixed_rate as [-> | ->]; [reflexivity|].
  destruct discountRateType; reflexivity.
Qed.

Lemma solveDCFCashFlow_bisection :
  solveDCFCashFlow cashFlows solverPeriod targetNPV discountRate
    discountRateType variableDiscountRates
  = bisectionMethod residual (-10000000000) 10000000000 (1 # 1000000) 200.
Proof.
  unfold solveDCFCashFlow. apply bisectionMethodN_total.
  intros x. apply dcf_func_fixed.
Qed.

Lemma weight_bounds : 0 < weight /\ weight <= 1.
Proof.
  unfold weight.
  assert (Hbase : 1 <= 1 + discountRate / 100)
    by (rewrite percent_eq; lra).
  pose proof (Qpower_1_le _ (Z.of_nat (Z.to_nat solverPeriod)) Hbase
                (Nat2Z.is_nonneg _)) as Hpow.
  set (y := (1 + discountRate / 100) ^ Z.of_nat (Z.to_nat solverPeriod)) in *.
  clearbody y. split.
  - apply Qinv_lt_0_compat. lra.
  - assert (E : / y * y == 1) by (field; lra).
    assert (0 < / y) by (apply Qinv_lt_0_compat; lra).
    set (w := / y) in *. clearbody w. nra.
Qed.

Lemma residual_affine (x : Q) : residual x == residual 0 + weight * x.
Proof.
  unfold residual, weight.
  rewrite calculateNPV_with_cash_flow by lia. unfold Qdiv. ring.
Qed.

Lemma residual_zero_iff (x : Q) :
  residual x == 0
  <-> calculateNPV (with_cash_flow cashFlows (Z.to_nat solverPeriod) x)
        discountRate == targetNPV.
Proof.
  unfold residual. split; intro H; lra.
Qed.

Lemma solveDCFCashFlow_accurate_aux (x : Q) :
  ~ residual (-10000000000) == 0 ->
  solveDCFCashFlow cashFlows solverPeriod targetNPV discountRate
    discountRateType variableDiscountRates = Some x ->
  -10000000000 <= x <= 10000000000
  /\ Qabs (residual x) < 1 # 1000000.
Proof.
  intros Hleft Hsolve. rewrite solveDCFCashFlow_bisection in Hsolve.
  unfold bisectionMethod in Hsolve.
  assert (Hbudget : 10000000000 - -10000000000
                    < (1 # 1000000) * 2 ^ Z.of_nat (Z.to_nat 200))
    by (vm_compute; reflexivity).
  remember (Z.to_nat 200) as n eqn:Hn. clear Hn.
  destruct (Qlt_bool 0 (residual (-10000000000) * residual 10000000000))
    eqn:E; [discriminate|].
  apply Qlt_bool_false_iff in E. injection Hsolve as <-.
  assert (Hab : -10000000000 <= 10000000000) by (vm_compute; discriminate).
  destruct (bisection_loop_sound residual (1 # 1000000) eq_refl n
              (-10000000000) 10000000000 Hab E Hleft)
    as (lo & hi & H1 & H2 & H3 & Hres & Hs & Hend).
  rewrite Hres.
  assert (Hmid : (lo + hi) / 2 == (lo + hi) * (1 # 2)) by reflexivity.
  split; [rewrite Hmid; split; lra|].
  assert (Hnarrow : Qabs (residual ((lo + hi) / 2)) < 1 # 1000000
                    \/ hi - lo < 1 # 1000000).
  { destruct Hend as [H|[H|H]]; [now left | now right |].
    right. exact (enough_halvings _ _ _ n Hbudget H). }
  destruct Hnarrow as [H|H]; [exact H|].
  (* the bracket is narrower than the tolerance *)
  destruct weight_bounds as [Hw0 Hw1].
  pose proof (residual_affine lo) as Hlo.
  pose proof (residual_affine hi) as Hhi.
  pose proof (residual_affine ((lo + hi) / 2)) as Hx.
  rewrite Hmid in Hx at 2.
  set (w := weight) in *. clearbody w.
  set (g0 := residual 0) in *. clearbody g0.
  set (glo := residual lo) in *. clearbody glo.
  set (ghi := residual hi) in *. clearbody ghi.
  set (gx := residual ((lo + hi) / 2)) in *. clearbody gx.
  assert (Hmono : glo <= ghi) by nra.
  assert (Hsign : glo <= 0 /\ 0 <= ghi) by (split; nra).
  assert (Hspan : ghi - glo < 1 # 1000000) by nra.
  apply Qabs_Qlt_condition. split; lra.
Qed.

Lemma solveDCFCashFlow_null_aux :
  solveDCFCashFlow cashFlows solverPeriod targetNPV discountRate
    discountRateType variableDiscountRates = None
  <-> ~ (exists x,
           -10000000000 <= x <= 10000000000 /\ residual x == 0).
Proof.
  rewrite solveDCFCashFlow_bisection. unfold bisectionMethod.
  destruct weight_bounds as [Hw0 Hw1].
  pose proof (residual_affine (-10000000000)) as Hlo.
  pose proof (residual_affine 10000000000) as Hhi.
  destruct (Qlt_bool 0 (residual (-10000000000) * residual 10000000000))
    eqn:E.
  - apply Qlt_bool_iff in E. split; [intros _ | reflexivity].
    intros (x & [Hx1 Hx2] & Hx).
    rewrite residual_affine in Hx.
    set (w := weight) in *. clearbody w.
    set (g0 := residual 0) in *. clearbody g0.
    set (glo := residual (-10000000000)) in *. clearbody glo.
    set (ghi := residual 10000000000) in *. clearbody ghi.
    assert (glo <= 0) by nra. assert (0 <= ghi) by nra. nra.
  - apply Qlt_bool_false_iff in E. split; [discriminate|].
    intros Hnone. exfalso. apply Hnone.
    (* the exact solution *)
    pose (y := (1 + discountRate / 100) ^ Z.of_nat (Z.to_nat solverPeriod)).
    assert (Hy : 1 <= y).
    { apply Qpower_1_le; [rewrite percent_eq; lra | apply Nat2Z.is_nonneg]. }
    assert (Hwy : weight * y == 1) by (unfold weight; fold y; field; lra).
    exists (- residual 0 * y).
    rewrite (residual_affine (- residual 0 * y)).
    set (w := weight) in *. clearbody w.
    set (g0 := residual 0) in *. clearbody g0.
    set (glo := residual (-10000000000)) in *. clearbody glo.
    set (ghi := residual 10000000000) in *. clearbody ghi.
    clearbody y.
    assert (Hsign : glo <= 0 /\ 0 <= ghi) by (split; nra).
    assert (Hroot : g0 + w * (- g0 * y) == 0).
    { transitivity (g0 - g0 * (w * y)); [ring|]. rewrite Hwy. ring. }
    split; [|exact Hroot].
    assert (Hlow : (- g0 * y + 10000000000) * w == - glo).
    { transitivity (- g0 * (w * y) + w * 10000000000); [ring|].
      rewrite Hwy. lra. }
    assert (Hhigh : (10000000000 - - g0 * y) * w == ghi).
    { transitivity (w * 10000000000 + g0 * (w * y)); [ring|].
      rewrite Hwy. lra. }
    split; nra.
Qed.

End CashFlowSolver.

(** For a cash flow to solve for inside the series, a discount rate that
    is not negative and fixed-rate discounting, a value [x] returned by
    [solveDCFCashFlow] lies within the bracket of plus or minus 1e10 and
    brings the net present value within 1e-6 of the target, provided the
    left end of the bracket is not itself an exact solution. *)
Theorem solveDCFCashFlow_accurate (cashFlows : list Q) (solverPeriod : Z)
    (targetNPV discountRate : Q) (discountRateType : DiscountRateType)
    (variableDiscountRates : option (list Q)) (x : Q) :
  (0 <= solverPeriod <= Z.of_nat (length cashFlows))%Z ->
  0 <= discountRate ->
  discountRateType = FixedRate \/ variableDiscountRates = None ->
  ~ calculateNPV
      (with_cash_flow cashFlows (Z.to_nat solverPeriod) (-10000000000))
      discountRate == targetNPV ->
  solveDCFCashFlow cashFlows solverPeriod targetNPV discountRate
    discountRateType variableDiscountRates = Some x ->
  -10000000000 <= x <= 10000000000
  /\ Qabs (calculateNPV (with_cash_flow cashFlows (Z.to_nat solverPeriod) x)
             discountRate - targetNPV) < 1 # 1000000.
Proof.
  intros Hrange Hrate Hfixed Hleft Hsolve.
  apply (solveDCFCashFlow_accurate_aux cashFlows solverPeriod targetNPV
           discountRate discountRateType variableDiscountRates
           Hrange Hrate Hfixed x); [|exact Hsolve].
  intro H. apply Hleft. lra.
Qed.

Lemma solveDCFCashFlow_accurate_witness :
  exists x,
    solveDCFCashFlow [-1000; 300; 400; 500] 1 (-391000 # 1331) 10 FixedRate
      None = Some x
    /\ -10000000000 <= x <= 10000000000
    /\ Qabs (calculateNPV (with_cash_flow [-1000; 300; 400; 500]
                             (Z.to_nat 1) x) 10 - (-391000 # 1331))
       < 1 # 1000000.
Proof.
  eexists. split; [vm_compute; reflexivity|].
  apply (solveDCFCashFlow_accurate [-1000; 300; 400; 500] 1 (-391000 # 1331)
           10 FixedRate None).
  - simpl. lia.
  - vm_compute. discriminate.
  - left. reflexivity.
  - intro H. vm_compute in H. discriminate H.
  - vm_compute. reflexivity.
Defined.

(** Under the same conditions [solveDCFCashFlow] returns "no result"
    exactly when no cash flow within plus or minus 1e10 brings the net
    present value to the target. *)
Theorem solveDCFCashFlow_null_iff (cashFlows : list Q) (solverPeriod : Z)
    (targetNPV discountRate : Q) (discountRateType : DiscountRateType)
    (variableDiscountRates : option (list Q)) :
  (0 <= solverPeriod <= Z.of_nat (length cashFlows))%Z ->
  0 <= discountRate ->
  discountRateType = FixedRate \/ variableDiscountRates = None ->
  solveDCFCashFlow cashFlows solverPeriod targetNPV discountRate
    discountRateType variableDiscountRates = None
  <-> ~ (exists x,
           -10000000000 <= x <= 10000000000
           /\ calculateNPV
                (with_cash_flow cashFlows (Z.to_nat solverPeriod) x)
                discountRate == targetNPV).
Proof.
  intros Hrange Hrate Hfixed.
  rewrite (solveDCFCashFlow_null_aux cashFlows solverPeriod targetNPV
             discountRate discountRateType variableDiscountRates
             Hrange Hrate Hfixed).
  split; intros Hno (x & Hx & Hroot); apply Hno; exists x;
    (split; [exact Hx | lra]).
Qed.

Lemma solveDCFCashFlow_null_iff_witness :
  solveDCFCashFlow [-1000; 300; 400; 500] 1 (-391000 # 1331) 10 FixedRate
    None = None
  <-> ~ (exists x,
           -10000000000 <= x <= 10000000000
           /\ calculateNPV
                (with_cash_flow [-1000; 300; 400; 500] (Z.to_nat 1) x) 10
              == -391000 # 1331).
Proof.
  apply (solveDCFCashFlow_null_iff [-1000; 300; 400; 500] 1 (-391000 # 1331)
           10 FixedRate None).
  - simpl. lia.
  - vm_compute. discriminate.
  - left. reflexivity.
Defined.

Lemma bisectionN_loop_nan (func : Q -> option Q) (tolerance b : Q)
    (fuel : nat) : forall a fa fb,
  (forall x, func x = None) ->
  0 < tolerance ->
  a < b ->
  b - a < tolerance * 2 ^ Z.of_nat fuel ->
  b - tolerance < bisectionN_loop func tolerance fuel a b fa fb < b.
Proof.
  induction fuel as [|fuel IH]; intros a fa fb Hnan Htol Hab Hbudget.
  - cbn [bisectionN_loop]. change (2 ^ Z.of_nat 0) with 1 in Hbudget.
    destruct (half_width a b) as [Hleft Hright]. split; lra.
  - cbn [bisectionN_loop]. rewrite Hnan. cbn [option_map nan_lt orb].
    destruct (half_width a b) as [Hleft Hright].
    destruct (Qlt_bool (Qabs (b - a)) tolerance) eqn:Ewidth.
    + apply Qlt_bool_iff in Ewidth. rewrite Qabs_pos in Ewidth by lra.
      split; lra.
    + assert (E : nan_lt (lift2 Qmult fa None) (Some 0) = false)
        by (destruct fa; reflexivity).
      rewrite E.
      destruct (IH ((a + b) / 2) None fb Hnan Htol) as [H1 H2]; [lra | |].
      * rewrite Qpower_succ_nat in Hbudget.
        set (c := (a + b) / 2) in *. clearbody c.
        set (p := 2 ^ Z.of_nat fuel) in *. clearbody p. lra.
      * split; assumption.
Qed.

(** In exact arithmetic: asked to solve for a cash flow past the end of
    the series (an index greater than its length), [solveDCFCashFlow] does
    not report "no result": every net present value it computes is [NaN],
    every test on such a value fails, and it returns a value within 1e-6
    of the upper end 1e10 of its bracket, and not beyond it. *)
Theorem solveDCFCashFlow_past_the_end (cashFlows : list Q) (solverPeriod : Z)
    (targetNPV discountRate : Q) (discountRateType : DiscountRateType)
    (variableDiscountRates : option (list Q)) :
  (Z.of_nat (length cashFlows) < solverPeriod)%Z ->
  exists x,
    solveDCFCashFlow cashFlows solverPeriod targetNPV discountRate
      discountRateType variableDiscountRates = Some x
    /\ 10000000000 - (1 # 1000000) < x <= 10000000000.
Proof.
  intros Hpast.
  assert (Hnan : forall x,
            dcf_func cashFlows solverPeriod targetNPV discountRate
              discountRateType variableDiscountRates x = None).
  { intros x. unfold dcf_func, modifiedCashFlows.
    assert (E1 : (solverPeriod <? 0)%Z = false) by (apply Z.ltb_ge; lia).
    assert (E2 : (Z.to_nat solverPeriod <=? length cashFlows)%nat = false)
      by (apply Nat.leb_gt; lia).
    now rewrite E1, E2. }
  unfold solveDCFCashFlow, bisectionMethodN. rewrite !Hnan.
  cbn [lift2 nan_lt]. eexists. split; [reflexivity|].
  assert (Hbudget : 10000000000 - -10000000000
                    < (1 # 1000000) * 2 ^ Z.of_nat (Z.to_nat 200))
    by (vm_compute; reflexivity).
  remember (Z.to_nat 200) as n eqn:Hn. clear Hn.
  match goal with
  | |- ?l < ?x /\ ?x <= ?u => assert (H : l < x < u)
  end.
  { apply bisectionN_loop_nan;
      [exact Hnan | reflexivity | reflexivity | exact Hbudget]. }
  destruct H as [Hlow Hhigh].
  split; [exact Hlow | now apply Qlt_le_weak].
Qed.

Lemma solveDCFCashFlow_past_the_end_witness :
  exists x,
    solveDCFCashFlow [-1000; 300] 5 0 10 FixedRate None = Some x
    /\ 10000000000 - (1 # 1000000) < x <= 10000000000.
Proof.
  apply (solveDCFCashFlow_past_the_end [-1000; 300] 5 0 10 FixedRate None).
  reflexivity.
Defined.

(** ** Shpitzer schedules, row by row *)

Lemma pay_loop_nth_row (principalOf interestOf : Q -> Q) (fuel : nat) :
  forall start b i,
    (i < fuel)%nat ->
    nth_error (pay_loop principalOf interestOf fuel start b) i
    = Some (let bi := balance_after principalOf i b in
            mkRow (start + Z.of_nat i) (principalOf bi) (interestOf bi)
              (principalOf bi + interestOf bi)
              (Qmax 0 (bi - principalOf bi))).
Proof.
  induction fuel as [|fuel IH]; intros start b i Hi; [lia|].
  destruct i as [|i].
  - cbn [pay_loop nth_error balance_after]. cbv zeta.
    now rewrite Z.add_0_r.
  - cbn [pay_loop nth_error balance_after]. rewrite IH by lia. cbv zeta.
    do 2 f_equal. lia.
Qed.

Lemma level_principal_balance_left (principalOf : Q -> Q) (slice : Q) :
  (forall b, principalOf b == Qmin slice b) ->
  0 <= slice ->
  forall i m b,
    slice * inject_Z (Z.of_nat (i + m)) == b ->
    balance_after principalOf i b == slice * inject_Z (Z.of_nat m).
Proof.
  intros Hmin Hslice. induction i as [|i IH]; intros m b Hb.
  - simpl in *. now rewrite Hb.
  - cbn [balance_after]. apply IH.
    change (S i + m)%nat with (S (i + m)) in Hb.
    rewrite (level_principal_takes_slice principalOf slice Hmin Hslice
               (i + m) b Hb).
    rewrite inject_Z_of_nat_S in Hb. rewrite <- Hb. ring.
Qed.

(** Row [k] of a shpitzer schedule in closed form: it repays the level
    slice [principal / periods], leaves the balance
    [principal - k * principal / periods], and charges interest on the
    balance before the payment with timing 'end', after it with timing
    'begin'. *)
Theorem generateShpitzerSchedule_rows (principal rate : Q) (periods : Z)
    (paymentTiming : PaymentTiming) (k : Z) :
  0 <= principal ->
  (1 <= k <= periods)%Z ->
  let slice := principal / inject_Z periods in
  exists row,
    nth_error (generateShpitzerSchedule principal rate periods paymentTiming)
              (Z.to_nat (k - 1)) = Some row
    /\ period row = k
    /\ principalPayment row == slice
    /\ remainingBalance row == principal - inject_Z k * slice
    /\ interestPayment row
       == match paymentTiming with
          | AtEnd => principal - inject_Z (k - 1) * slice
          | AtBegin => principal - inject_Z k * slice
          end * (rate / 100).
Proof.
  intros Hprincipal Hk. cbv zeta.
  assert (Hperiods : (1 <= periods)%Z) by lia.
  pose proof (slice_nonneg principal periods Hprincipal Hperiods) as Hslice.
  pose proof (slice_times_periods principal periods Hperiods) as Hall.
  unfold generateShpitzerSchedule. rewrite shpitzer_loop_pay.
  rewrite pay_loop_nth_row by lia. cbv zeta.
  eexists. split; [reflexivity|].
  cbn [period principalPayment remainingBalance interestPayment].
  set (slice := principal / inject_Z periods) in *.
  set (i := Z.to_nat (k - 1)) in *.
  set (m := Z.to_nat (periods - k)).
  assert (Hsplit : Z.to_nat periods = (i + S m)%nat) by (unfold i, m; lia).
  rewrite Hsplit in Hall.
  pose proof (level_principal_balance_left (fun b => Qmin slice b) slice
                (fun b => Qeq_refl _) Hslice i (S m) principal Hall) as Hbi.
  pose proof (level_principal_takes_slice (fun b => Qmin slice b) slice
                (fun b => Qeq_refl _) Hslice m _ (Qeq_sym _ _ Hbi)) as Hp.
  cbv beta in Hbi, Hp.
  set (bi := balance_after (fun b => Qmin slice b) i principal) in *.
  clearbody bi.
  assert (Hi : inject_Z (Z.of_nat i) == inject_Z (k - 1))
    by (unfold i; rewrite Z2Nat.id by lia; reflexivity).
  assert (Hk1 : inject_Z (k - 1) == inject_Z k - 1)
    by (unfold Z.sub; rewrite inject_Z_plus; reflexivity).
  assert (Hsum : inject_Z (Z.of_nat (i + S m))
                 == inject_Z (Z.of_nat i) + inject_Z (Z.of_nat (S m))).
  { rewrite Nat2Z.inj_add, inject_Z_plus. reflexivity. }
  rewrite Hsum in Hall.
  pose proof (inject_Z_of_nat_nonneg m) as Hm.
  rewrite inject_Z_of_nat_S in Hbi, Hall.
  set (qm := inject_Z (Z.of_nat m)) in *. clearbody qm.
  set (qi := inject_Z (Z.of_nat i)) in *. clearbody qi.
  set (qk := inject_Z k) in *. clearbody qk.
  split; [unfold i; lia|].
  split; [exact Hp|].
  split.
  - rewrite Hp, Q.max_r by nra. nra.
  - destruct paymentTiming; rewrite ?Hp, Hbi, Hk1 || rewrite ?Hp, Hbi; nra.
Qed.

Lemma generateShpitzerSchedule_rows_witness :
  let slice := 1200 / inject_Z 12 in
  exists row,
    nth_error (generateShpitzerSchedule 1200 12 12 AtEnd) (Z.to_nat (3 - 1))
    = Some row
    /\ period row = 3%Z
    /\ principalPayment row == slice
    /\ remainingBalance row == 1200 - inject_Z 3 * slice
    /\ interestPayment row == (1200 - inject_Z (3 - 1) * slice) * (12 / 100).
Proof.
  apply (generateShpitzerSchedule_rows 1200 12 12 AtEnd 3).
  - vm_compute. discriminate.
  - lia.
Defined.
